(** * Software rasterization backend of the canvas library

    A shallow embedding of [std_image.go] (the [SoftwareBackend]) and of the
    gradient evaluator of the backend interface file, together with the
    properties stated about them.

    Conventions of the embedding
    - Go's [float64] is Rocq's primitive binary64 [float]; every arithmetic
      operation and comparison is the IEEE 754 one, so the definitions run
      with exactly the roundings the Go program performs.
    - Go's [int] is [Z]; the loops of the rasterizer never leave the int64
      range, except through the float-to-int conversion, which is modelled
      as the amd64 instruction does it (see [int_of_float]).
    - [uint8] channels are [Z] values; [is_uint8] states the range.
    - The Go callbacks [fn func(x, y int)] that mutate the backend are
      state transformers [Z -> Z -> S -> S]. *)

From Stdlib Require Import ZArith List Lia Bool Floats.
Import ListNotations.
Open Scope Z_scope.
Set Warnings "-inexact-float".

(** ** Go's numeric primitives on [float64] *)

Module GoMath.

(** [float64(n)] for an integer [n]: the nearest binary64, ties to even. *)
Definition float64_of_int (n : Z) : float :=
  SF2Prim (binary_normalize prec emax n 0 false).

(** The integer obtained from mantissa [m] and exponent [e < 0] by dropping
    the fraction (the magnitude is rounded toward zero), and whether a
    non-zero fraction was dropped. *)
Definition mag_trunc (m : positive) (e : Z) : Z := Z.shiftr (Zpos m) (- e).
Definition has_frac (m : positive) (e : Z) : bool :=
  negb (Z.shiftl (mag_trunc m e) (- e) =? Zpos m).

Definition signed_int_float (s : bool) (q : Z) : float :=
  if q =? 0 then (if s then neg_zero else zero)
  else float64_of_int (if s then - q else q).

(** [math.Floor]: NaN, infinities, zeros and integral values are returned
    unchanged. *)
Definition math_Floor (x : float) : float :=
  match Prim2SF x with
  | S754_finite s m e =>
      if 0 <=? e then x
      else
        let q := mag_trunc m e in
        if s then float64_of_int (- (if has_frac m e then q + 1 else q))
        else signed_int_float false q
  | _ => x
  end.

(** [math.Ceil]. *)
Definition math_Ceil (x : float) : float :=
  match Prim2SF x with
  | S754_finite s m e =>
      if 0 <=? e then x
      else
        let q := mag_trunc m e in
        if s then signed_int_float true q
        else float64_of_int (if has_frac m e then q + 1 else q)
  | _ => x
  end.

(** [math.Round]: nearest integer, halves away from zero. *)
Definition math_Round (x : float) : float :=
  match Prim2SF x with
  | S754_finite s m e =>
      if 0 <=? e then x
      else
        let q := mag_trunc m e in
        signed_int_float s (if Z.testbit (Zpos m) (- e - 1) then q + 1 else q)
  | _ => x
  end.

(** [math.Min] and [math.Max], with Go's special cases for infinities, NaN
    and signed zeros. *)
Definition math_Min (x y : float) : float :=
  if (x =? neg_infinity)%float || (y =? neg_infinity)%float then neg_infinity
  else if is_nan x || is_nan y then nan
  else if (x =? 0)%float && (y =? 0)%float then
         (if get_sign x then x else y)
  else if (x <? y)%float then x else y.

Definition math_Max (x y : float) : float :=
  if (x =? infinity)%float || (y =? infinity)%float then infinity
  else if is_nan x || is_nan y then nan
  else if (x =? 0)%float && (y =? 0)%float then
         (if get_sign x then y else x)
  else if (y <? x)%float then x else y.

(** The value the amd64 conversion instruction (CVTTSD2SQ) yields for NaN,
    infinities and values outside int64: the "integer indefinite". The Go
    specification leaves the result of such a conversion to the
    implementation. *)
Definition int_indefinite : Z := - 2 ^ 63.

(** [int(x)] for a float64 [x]: truncation toward zero. *)
Definition int_of_float (x : float) : Z :=
  match Prim2SF x with
  | S754_zero _ => 0
  | S754_finite s m e =>
      let t := if 0 <=? e then Z.shiftl (Zpos m) e else mag_trunc m e in
      let v := if s then - t else t in
      if (- 2 ^ 63 <=? v) && (v <? 2 ^ 63) then v else int_indefinite
  | _ => int_indefinite
  end.

(** [uint8(x)] for a float64 [x]: truncation, then the low eight bits. Every
    use in the program applies it to a value within [0, 255]. *)
Definition uint8_of_float (x : float) : Z := (int_of_float x) mod 256.

(** [uint8(n)] for an integer [n]. *)
Definition uint8_of_int (n : Z) : Z := n mod 256.

End GoMath.
Import GoMath.

Definition is_uint8 (n : Z) : Prop := 0 <= n < 256.

(** ** Colours: [color.RGBA] and [color.Alpha] *)

Record RGBA : Set := mkRGBA { R : Z; G : Z; B : Z; A : Z }.

Definition transparent : RGBA := mkRGBA 0 0 0 0.

Definition wf_color (c : RGBA) : Prop :=
  is_uint8 (R c) /\ is_uint8 (G c) /\ is_uint8 (B c) /\ is_uint8 (A c).

Definition RGBA_eqb (c d : RGBA) : bool :=
  (R c =? R d) && (G c =? G d) && (B c =? B d) && (A c =? A d).

(** The [RGBA()] method of [color.RGBA]: each 8-bit channel [v] widened to
    16 bits as [v | v<<8]. *)
Definition widen16 (v : Z) : Z := Z.lor v (Z.shiftl v 8).

Definition RGBA_RGBA (c : RGBA) : Z * Z * Z * Z :=
  (widen16 (R c), widen16 (G c), widen16 (B c), widen16 (A c)).

(** ** The compositor: [mix] *)

Definition mix (src dest : RGBA) : RGBA :=
  let '(ir1, ig1, ib1, ia1) := RGBA_RGBA src in
  let r1 := (float64_of_int ir1 / 65535.0)%float in
  let g1 := (float64_of_int ig1 / 65535.0)%float in
  let b1 := (float64_of_int ib1 / 65535.0)%float in
  let a1 := (float64_of_int ia1 / 65535.0)%float in
  let '(ir2, ig2, ib2, ia2) := RGBA_RGBA dest in
  let r2 := (float64_of_int ir2 / 65535.0)%float in
  let g2 := (float64_of_int ig2 / 65535.0)%float in
  let b2 := (float64_of_int ib2 / 65535.0)%float in
  let a2 := (float64_of_int ia2 / 65535.0)%float in
  let r := ((r1 - r2) * a1 + r2)%float in
  let g := ((g1 - g2) * a1 + g2)%float in
  let b := ((b1 - b2) * a1 + b2)%float in
  let a := math_Max ((a1 - a2) * a1 + a2)%float a2 in
  mkRGBA (uint8_of_float (math_Round (r * 255.0)%float))
         (uint8_of_float (math_Round (g * 255.0)%float))
         (uint8_of_float (math_Round (b * 255.0)%float))
         (uint8_of_float (math_Round (a * 255.0)%float)).

(** *** Reference formulas for the compositor *)

(** An 8-bit channel as a fraction of one, the way [mix] obtains it from the
    16-bit value of [RGBA()]. *)
Definition unit_of_u8 (v : Z) : float :=
  (float64_of_int (widen16 v) / 65535.0)%float.

(** An 8-bit channel as a fraction of one in straight alpha: [v/255]. *)
Definition straight (v : Z) : float := (float64_of_int v / 255.0)%float.

Definition round255 (x : float) : Z :=
  uint8_of_float (math_Round (x * 255.0)%float).

(** Linear interpolation from the destination to the source by the source
    alpha, in double precision: the colour channels of [mix]. *)
Definition lerp_channel (cs cd as_ : Z) : Z :=
  round255 ((straight cs - straight cd) * straight as_ + straight cd)%float.

(** The alpha of [mix] in exact integer arithmetic: the nearest integer to
    [255 * max (a_d + (a_s - a_d) * a_s, a_d)] for [a = v/255]. *)
Definition mix_alpha_exact (a1 a2 : Z) : Z :=
  Z.max ((2 * ((a1 - a2) * a1 + 255 * a2) + 255) / 510) a2.

(** Standard source-over compositing in straight alpha, with double-precision
    intermediates and each channel rounded at the end:
    [out.a = a_s + a_d*(1-a_s)],
    [out.rgb = (rgb_s*a_s + rgb_d*a_d*(1-a_s)) / out.a]. *)
Definition source_over (s d : RGBA) : RGBA :=
  let a_s := straight (A s) in
  let a_d := straight (A d) in
  let out_a := (a_s + a_d * (1 - a_s))%float in
  let chan (cs cd : Z) :=
    round255 ((straight cs * a_s + straight cd * a_d * (1 - a_s)) / out_a)%float in
  mkRGBA (chan (R s) (R d)) (chan (G s) (G d)) (chan (B s) (B d)) (round255 out_a).

(** The alpha computation of [mix] on the two alpha fractions. *)
Definition alpha_of_units (f1 f2 : float) : Z :=
  round255 (math_Max ((f1 - f2) * f1 + f2)%float f2).

(** *** Tables over the 256 channel values *)

Definition u8_values : list Z := map Z.of_nat (seq 0 256).

Definition u8_table : list (Z * float) :=
  map (fun v => (v, unit_of_u8 v)) u8_values.

Definition alpha_agrees (p1 p2 : Z * float) : bool :=
  alpha_of_units (snd p1) (snd p2) =? mix_alpha_exact (fst p1) (fst p2).

Definition straight_agrees (v : Z) : bool :=
  Leibniz.eqb (unit_of_u8 v) (straight v).
(** ** Gradients: [BackendGradient.ColorAt] *)

Record BackendGradientStop : Set := mkStop { Pos : float; Color : RGBA }.

Definition BackendGradient := list BackendGradientStop.

Definition stop_default : BackendGradientStop := mkStop 0 transparent.

(** [g[i]] for a gradient. *)
Definition stop_at (g : BackendGradient) (i : Z) : BackendGradientStop :=
  nth (Z.to_nat i) g stop_default.

(** The loop [for i, stop := range g] of [ColorAt]: it leaves at the first
    stop with [stop.Pos > pos], and yields [(beforeIdx, afterIdx)]. *)
Fixpoint scan_stops (g : BackendGradient) (pos : float) (i beforeIdx : Z) : Z * Z :=
  match g with
  | [] => (beforeIdx, -1)
  | stop :: rest =>
      if (pos <? Pos stop)%float then (beforeIdx, i)
      else scan_stops rest pos (i + 1) i
  end.

Definition ColorAt (g : BackendGradient) (pos : float) : RGBA :=
  if Z.of_nat (length g) =? 0 then transparent
  else if Z.of_nat (length g) =? 1 then Color (stop_at g 0)
  else
    let '(beforeIdx, afterIdx) := scan_stops g pos 0 (-1) in
    if beforeIdx =? -1 then Color (stop_at g 0)
    else if afterIdx =? -1 then Color (stop_at g (Z.of_nat (length g) - 1))
    else
      let before := stop_at g beforeIdx in
      let after := stop_at g afterIdx in
      let p := ((pos - Pos before) / (Pos after - Pos before))%float in
      let c0 := ((float64_of_int (R (Color after)) - float64_of_int (R (Color before))) * p
                 + float64_of_int (R (Color before)))%float in
      let c1 := ((float64_of_int (G (Color after)) - float64_of_int (G (Color before))) * p
                 + float64_of_int (G (Color before)))%float in
      let c2 := ((float64_of_int (B (Color after)) - float64_of_int (B (Color before))) * p
                 + float64_of_int (B (Color before)))%float in
      let c3 := ((float64_of_int (A (Color after)) - float64_of_int (A (Color before))) * p
                 + float64_of_int (A (Color before)))%float in
      mkRGBA (uint8_of_float (math_Round c0))
             (uint8_of_float (math_Round c1))
             (uint8_of_float (math_Round c2))
             (uint8_of_float (math_Round c3)).

(** Linear interpolation between two stops, channel by channel, in double
    precision and rounded to the nearest integer: the value at the fraction
    [p] of the way from [before] to [after]. *)
Definition lerp_float (from to p : float) : float := ((to - from) * p + from)%float.

Definition lerp_stops (before after : BackendGradientStop) (pos : float) : RGBA :=
  let p := ((pos - Pos before) / (Pos after - Pos before))%float in
  let chan (sel : RGBA -> Z) : Z :=
    uint8_of_float (math_Round
      (lerp_float (float64_of_int (sel (Color before)))
                  (float64_of_int (sel (Color after))) p)) in
  mkRGBA (chan R) (chan G) (chan B) (chan A).

(** The checks behind [ColorAt(0)]: with [p = 0] every channel computes
    [(after - before) * 0 + before], which is [before] again, and rounding an
    integral channel value returns it. *)
Definition f8_values : list float := map float64_of_int u8_values.

Definition lerp0_agrees (f_after f_before : float) : bool :=
  Leibniz.eqb ((f_after - f_before) * 0 + f_before)%float f_before.

Definition round_agrees (c : Z) : bool :=
  uint8_of_float (math_Round (float64_of_int c)) =? c.

(** ** The [image] package: points, rectangles and pixel buffers *)

Record Point : Set := mkPoint { X : Z; Y : Z }.

Record Rectangle : Set := mkRectangle { Min : Point; Max : Point }.

(** [image.ZP] and [image.ZR]. *)
Definition ZP : Point := mkPoint 0 0.
Definition ZR : Rectangle := mkRectangle ZP ZP.

(** [image.Rect(x0, y0, x1, y1)]: the rectangle with these two corners,
    the coordinates swapped where needed to make it well-formed. *)
Definition image_Rect (x0 y0 x1 y1 : Z) : Rectangle :=
  let '(x0, x1) := if x1 <? x0 then (x1, x0) else (x0, x1) in
  let '(y0, y1) := if y1 <? y0 then (y1, y0) else (y0, y1) in
  mkRectangle (mkPoint x0 y0) (mkPoint x1 y1).

Definition Dx (r : Rectangle) : Z := X (Max r) - X (Min r).
Definition Dy (r : Rectangle) : Z := Y (Max r) - Y (Min r).

Definition Empty (r : Rectangle) : bool :=
  (X (Max r) <=? X (Min r)) || (Y (Max r) <=? Y (Min r)).

(** [p.In(r)]. *)
Definition Point_In (p : Point) (r : Rectangle) : bool :=
  (X (Min r) <=? X p) && (X p <? X (Max r)) &&
  (Y (Min r) <=? Y p) && (Y p <? Y (Max r)).

Definition Point_Sub (p q : Point) : Point := mkPoint (X p - X q) (Y p - Y q).

(** [r.Add(p)]: the rectangle translated by [p]. *)
Definition Rect_Add (r : Rectangle) (p : Point) : Rectangle :=
  mkRectangle (mkPoint (X (Min r) + X p) (Y (Min r) + Y p))
              (mkPoint (X (Max r) + X p) (Y (Max r) + Y p)).

(** [r.Intersect(s)]: the largest rectangle inside both, [ZR] when there is
    none. *)
Definition Intersect (r s : Rectangle) : Rectangle :=
  let x0 := if X (Min r) <? X (Min s) then X (Min s) else X (Min r) in
  let y0 := if Y (Min r) <? Y (Min s) then Y (Min s) else Y (Min r) in
  let x1 := if X (Max s) <? X (Max r) then X (Max s) else X (Max r) in
  let y1 := if Y (Max s) <? Y (Max r) then Y (Max s) else Y (Max r) in
  let r' := mkRectangle (mkPoint x0 y0) (mkPoint x1 y1) in
  if Empty r' then ZR else r'.

(** Writing one slot of a pixel array. *)
Fixpoint list_set {T : Type} (l : list T) (n : nat) (v : T) : list T :=
  match l, n with
  | [], _ => []
  | _ :: t, O => v :: t
  | x :: t, S n' => x :: list_set t n' v
  end.

(** A pixel buffer ([image.RGBA], [image.Alpha]): the pixel array, the
    distance between rows and the bounds. One slot of [Pix] holds one pixel
    (for [image.RGBA] the four bytes of a pixel are one [RGBA] value), so
    [Stride] counts pixels. *)
Record Raster (T : Type) : Type := mkRaster {
  Pix : list T;
  Stride : Z;
  Rect : Rectangle
}.
Arguments mkRaster {T}.
Arguments Pix {T}.
Arguments Stride {T}.
Arguments Rect {T}.

Definition PixOffset {T : Type} (p : Raster T) (x y : Z) : Z :=
  (y - Y (Min (Rect p))) * Stride p + (x - X (Min (Rect p))).

(** Reading a pixel: the zero value outside the bounds. *)
Definition raster_at {T : Type} (zero : T) (p : Raster T) (x y : Z) : T :=
  if Point_In (mkPoint x y) (Rect p)
  then nth (Z.to_nat (PixOffset p x y)) (Pix p) zero
  else zero.

(** Writing a pixel: nothing happens outside the bounds. *)
Definition raster_set {T : Type} (p : Raster T) (x y : Z) (v : T) : Raster T :=
  if Point_In (mkPoint x y) (Rect p)
  then mkRaster (list_set (Pix p) (Z.to_nat (PixOffset p x y)) v) (Stride p) (Rect p)
  else p.

(** A fresh buffer with bounds [r], every pixel the zero value. *)
Definition raster_new {T : Type} (zero : T) (r : Rectangle) : Raster T :=
  mkRaster (repeat zero (Z.to_nat (Dx r * Dy r))) (Dx r) r.

Definition RGBAImage : Type := Raster RGBA.
Definition AlphaImage : Type := Raster Z.

Definition RGBAAt : RGBAImage -> Z -> Z -> RGBA := raster_at transparent.
Definition SetRGBA : RGBAImage -> Z -> Z -> RGBA -> RGBAImage := raster_set.
Definition AlphaAt : AlphaImage -> Z -> Z -> Z := raster_at 0.
Definition SetAlpha : AlphaImage -> Z -> Z -> Z -> AlphaImage := raster_set.
Definition NewRGBA : Rectangle -> RGBAImage := raster_new transparent.
Definition NewAlpha : Rectangle -> AlphaImage := raster_new 0.

(** [p.SubImage(r)]: the part of [p] visible through [r]. The result shares
    its pixels with [p]: its array starts at the first visible pixel of
    [p]'s array. *)
Definition SubImage {T : Type} (p : Raster T) (r : Rectangle) : Raster T :=
  let r := Intersect r (Rect p) in
  if Empty r then mkRaster [] 0 ZR
  else
    let i := PixOffset p (X (Min r)) (Y (Min r)) in
    mkRaster (skipn (Z.to_nat i) (Pix p)) (Stride p) r.

(** ** Loops *)

(** [for i := lo; i <= hi; i++ { body }] on a threaded state. *)
Fixpoint for_loop {St : Type} (n : nat) (i : Z) (body : Z -> St -> St) (s : St) : St :=
  match n with
  | O => s
  | S n' => for_loop n' (i + 1) body (body i s)
  end.

Definition for_upto {St : Type} (lo hi : Z) (body : Z -> St -> St) (s : St) : St :=
  for_loop (Z.to_nat (hi + 1 - lo)) lo body s.

(** ** The triangle scan *)

(** [BackendVec] is [[2]float64]: [fst] is [v[0]], [snd] is [v[1]]. *)
Definition BackendVec : Set := (float * float)%type.

(** The three points [tri[0]], [tri[1]], [tri[2]] handed to the scan. *)
Record Tri : Set := mkTri { tri0 : BackendVec; tri1 : BackendVec; tri2 : BackendVec }.

Definition triangleLR (tri : Tri) (y : float) : float * float * bool :=
  let a := tri0 tri in
  let b := tri1 tri in
  let c := tri2 tri in
  (* sort by y *)
  let '(a, b) := if (snd b <? snd a)%float then (b, a) else (a, b) in
  let '(a, b, c) :=
    if (snd c <? snd b)%float then
      let '(b, c) := (c, b) in
      if (snd b <? snd a)%float then (b, a, c) else (a, b, c)
    else (a, b, c) in
  (* check general bounds *)
  if (y <=? snd a)%float then (fst a, fst a, true)
  else if (snd c <? y)%float then (fst c, fst c, true)
  else
    (* find left and right x at y *)
    let '(l, r) :=
      if (snd a <=? y)%float && (y <=? snd b)%float && (snd a <? snd b)%float then
        let r0 := ((y - snd a) / (snd b - snd a))%float in
        let l := ((fst b - fst a) * r0 + fst a)%float in
        let r1 := ((y - snd a) / (snd c - snd a))%float in
        let r := ((fst c - fst a) * r1 + fst a)%float in
        (l, r)
      else
        let r0 := ((y - snd b) / (snd c - snd b))%float in
        let l := ((fst c - fst b) * r0 + fst b)%float in
        let r1 := ((y - snd a) / (snd c - snd a))%float in
        let r := ((fst c - fst a) * r1 + fst a)%float in
        (l, r) in
    let '(l, r) := if (r <? l)%float then (r, l) else (l, r) in
    (l, r, false).

(** The scanline range of a triangle, clamped to the buffer height [bh];
    [None] when the scan returns at once. *)
Definition scan_rows (bh : Z) (y0 y1 y2 : float) : option (Z * Z) :=
  let minY := int_of_float (math_Floor (math_Min (math_Min y0 y1) y2)) in
  let maxY := int_of_float (math_Ceil (math_Max (math_Max y0 y1) y2)) in
  match (if minY <? 0 then Some 0 else if bh <=? minY then None else Some minY) with
  | None => None
  | Some minY =>
      match (if maxY <? 0 then None
             else if bh <=? maxY then Some (bh - 1) else Some maxY) with
      | None => None
      | Some maxY => Some (minY, maxY)
      end
  end.

(** [fillTriangleNoAA] for a buffer of width [bw] and height [bh]; the
    callback [fn] receives every pixel whose centre lies in the span of its
    scanline. *)
Definition scanTriangleNoAA {St : Type} (bw bh : Z) (tri : Tri)
           (fn : Z -> Z -> St -> St) (s : St) : St :=
  match scan_rows bh (snd (tri0 tri)) (snd (tri1 tri)) (snd (tri2 tri)) with
  | None => s
  | Some (minY, maxY) =>
      for_upto minY maxY (fun y s =>
        let '(l, r, out) := triangleLR tri (float64_of_int y + 0.5)%float in
        if out then s
        else
          match (if (l <? 0)%float then Some 0%float
                 else if (float64_of_int bw <? l)%float then None else Some l) with
          | None => s
          | Some l =>
              match (if (r <? 0)%float then None
                     else if (float64_of_int bw <? r)%float
                          then Some (float64_of_int bw) else Some r) with
              | None => s
              | Some r =>
                  if (r <=? l)%float then s
                  else
                    let fl := int_of_float (math_Floor l) in
                    let cr := int_of_float (math_Ceil r) in
                    for_upto fl cr (fun x s =>
                      let fx := (float64_of_int x + 0.5)%float in
                      if (fx <? l)%float || (r <=? fx)%float then s
                      else fn x y s) s
              end
          end) s
  end.

(** *** The multi-sample scan *)

Record msaaPixel : Set := mkMsaaPixel {
  ix : Z; iy : Z;
  fx : float; fy : float;
  tx : float; ty : float
}.

(** [px == px2] on the struct: integer fields equal and float fields equal
    as floats. *)
Definition msaaPixel_eqb (p q : msaaPixel) : bool :=
  (ix p =? ix q) && (iy p =? iy q) &&
  (fx p =? fx q)%float && (fy p =? fy q)%float &&
  (tx p =? tx q)%float && (ty p =? ty q)%float.

Definition addMSAAPixel (msaaPixels : list msaaPixel) (px : msaaPixel) : list msaaPixel :=
  if existsb (msaaPixel_eqb px) msaaPixels then msaaPixels
  else msaaPixels ++ [px].

(** [math.MaxFloat64]. *)
Definition MaxFloat64 : float := 0x1.fffffffffffffp+1023%float.

(** The sub-sample coordinates [start, start+step, ...] obtained by the
    repeated [s += msaaStep]. *)
Fixpoint substeps (n : nat) (start step : float) : list float :=
  match n with
  | O => []
  | S n' => start :: substeps n' (start + step)%float step
  end.

(** The first loop over the sub-scanlines of row [y]: the clamped spans
    [l[step]], [r[step]], with [allOut], [minL], [maxR]. *)
Definition sub_spans (bw : Z) (tri : Tri) (sys : list float)
  : list (float * float) * (bool * float * float) :=
  fold_left (fun (acc : list (float * float) * (bool * float * float)) sy =>
    let '(spans, (allOut, minL, maxR)) := acc in
    let '(l, r, out) := triangleLR tri sy in
    let '(l, out) :=
      if (l <? 0)%float then (0%float, out)
      else if (float64_of_int bw <? l)%float then (float64_of_int bw, true)
      else (l, out) in
    let '(r, out) :=
      if (r <? 0)%float then (0%float, true)
      else if (float64_of_int bw <? r)%float then (float64_of_int bw, out)
      else (r, out) in
    let out := if (r <=? l)%float then true else out in
    let summary :=
      if negb out then (false, math_Min minL l, math_Max maxR r)
      else (allOut, minL, maxR) in
    (spans ++ [(l, r)], summary))
  sys ([], (true, MaxFloat64, 0%float)).

(** The [check] loop: every sub-sample of the pixel lies in the span of its
    sub-scanline. *)
Definition all_in (spans : list (float * float)) (sxs : list float) : bool :=
  forallb (fun lr : float * float =>
    forallb (fun sx => negb ((sx <? fst lr)%float || (snd lr <=? sx)%float)) sxs) spans.

(** The last loop: the sub-samples of pixel [(x, y)] inside their spans are
    added to the sample list. *)
Definition collect_samples (x y : Z) (spans : list (float * float))
           (sxs sys : list float) (msaaPixels : list msaaPixel) : list msaaPixel :=
  fold_left (fun acc (row : float * float * float) =>
    let '(l, r, sy) := row in
    fold_left (fun acc sx =>
      if (l <=? sx)%float && (sx <? r)%float
      then addMSAAPixel acc (mkMsaaPixel x y sx sy 0 0)
      else acc) sxs acc)
  (combine spans sys) msaaPixels.

(** [fillTriangleMSAA]; the sample list and the state touched by [fn] are
    threaded together. The Go arrays [l] and [r] have five slots, so the
    program needs [msaaLevel <= 4]. *)
Definition scanTriangleMSAA {St : Type} (bw bh : Z) (tri : Tri) (msaaLevel : Z)
           (fn : Z -> Z -> St -> St) (acc : list msaaPixel * St) : list msaaPixel * St :=
  let msaaStep := (1.0 / float64_of_int (msaaLevel + 1))%float in
  let n := Z.to_nat (msaaLevel + 1) in
  match scan_rows bh (snd (tri0 tri)) (snd (tri1 tri)) (snd (tri2 tri)) with
  | None => acc
  | Some (minY, maxY) =>
      for_upto minY maxY (fun y acc =>
        let sys := substeps n (float64_of_int y + msaaStep * 0.5)%float msaaStep in
        let '(spans, (allOut, minL, maxR)) := sub_spans bw tri sys in
        if allOut then acc
        else
          let fl := int_of_float (math_Floor minL) in
          let cr := int_of_float (math_Ceil maxR) in
          for_upto fl cr (fun x (acc : list msaaPixel * St) =>
            let sxs := substeps n (float64_of_int x + msaaStep * 0.5)%float msaaStep in
            if all_in spans sxs then (fst acc, fn x y (snd acc))
            else (collect_samples x y spans sxs sys (fst acc), snd acc)) acc) acc
  end.

(** [iterateTriangles]: four points are the two triangles of a quad sharing
    the diagonal from point 0 to point 2; otherwise the points are taken
    three at a time. *)
Fixpoint iterate_triples {St : Type} (pts : list BackendVec) (fn : Tri -> St -> St) (s : St) : St :=
  match pts with
  | p0 :: p1 :: p2 :: rest => iterate_triples rest fn (fn (mkTri p0 p1 p2) s)
  | _ => s
  end.

Definition iterateTriangles {St : Type} (pts : list BackendVec)
           (fn : Tri -> St -> St) (s : St) : St :=
  match pts with
  | [p0; p1; p2; p3] => fn (mkTri p0 p2 p3) (fn (mkTri p0 p1 p2) s)
  | _ => iterate_triples pts fn s
  end.

(** ** The backend state *)

(** [SoftwareBackend]. The last field is not part of the Go struct: it is a
    history variable recording, most recent first, the pixels into which the
    compositor [mix] has blended a colour. *)
Record SoftwareBackend : Type := mkBackend {
  Image : RGBAImage;
  MSAA : Z;
  blurSwap : RGBAImage;
  clip : AlphaImage;
  stencil : AlphaImage;
  w : Z;
  h : Z;
  blendLog : list (Z * Z)
}.

Definition set_Image (b : SoftwareBackend) (img : RGBAImage) : SoftwareBackend :=
  mkBackend img (MSAA b) (blurSwap b) (clip b) (stencil b) (w b) (h b) (blendLog b).
Definition set_MSAA (b : SoftwareBackend) (n : Z) : SoftwareBackend :=
  mkBackend (Image b) n (blurSwap b) (clip b) (stencil b) (w b) (h b) (blendLog b).
Definition set_blurSwap (b : SoftwareBackend) (img : RGBAImage) : SoftwareBackend :=
  mkBackend (Image b) (MSAA b) img (clip b) (stencil b) (w b) (h b) (blendLog b).
Definition set_clip (b : SoftwareBackend) (m : AlphaImage) : SoftwareBackend :=
  mkBackend (Image b) (MSAA b) (blurSwap b) m (stencil b) (w b) (h b) (blendLog b).
Definition set_stencil (b : SoftwareBackend) (m : AlphaImage) : SoftwareBackend :=
  mkBackend (Image b) (MSAA b) (blurSwap b) (clip b) m (w b) (h b) (blendLog b).

(** [for i := range p { p[i] = v }]. *)
Definition fill_pix {T : Type} (p : Raster T) (v : T) : Raster T :=
  mkRaster (map (fun _ => v) (Pix p)) (Stride p) (Rect p).

Definition clearStencil (b : SoftwareBackend) : SoftwareBackend :=
  set_stencil b (fill_pix (stencil b) 0).

Definition ClearClip (b : SoftwareBackend) : SoftwareBackend :=
  set_clip b (fill_pix (clip b) 255).

Definition SetSize (b : SoftwareBackend) (bw bh : Z) : SoftwareBackend :=
  ClearClip
    (mkBackend (NewRGBA (image_Rect 0 0 bw bh)) (MSAA b) (blurSwap b)
               (NewAlpha (image_Rect 0 0 bw bh)) (NewAlpha (image_Rect 0 0 bw bh))
               bw bh (blendLog b)).

Definition NewBackend (bw bh : Z) : SoftwareBackend :=
  SetSize (mkBackend (mkRaster [] 0 ZR) 0 (mkRaster [] 0 ZR)
                     (mkRaster [] 0 ZR) (mkRaster [] 0 ZR) 0 0 []) bw bh.

Definition fillTriangleNoAA (b : SoftwareBackend) (tri : Tri)
           (fn : Z -> Z -> SoftwareBackend -> SoftwareBackend) : SoftwareBackend :=
  scanTriangleNoAA (w b) (h b) tri fn b.

Definition fillTriangleMSAA (b : SoftwareBackend) (tri : Tri) (msaaLevel : Z)
           (msaaPixels : list msaaPixel)
           (fn : Z -> Z -> SoftwareBackend -> SoftwareBackend)
  : list msaaPixel * SoftwareBackend :=
  scanTriangleMSAA (w b) (h b) tri msaaLevel fn (msaaPixels, b).

(** ** Painting *)

(** [b.Image.SetRGBA(x, y, mix(col, b.Image.RGBAAt(x, y)))]. *)
Definition blend (b : SoftwareBackend) (x y : Z) (col : RGBA) : SoftwareBackend :=
  mkBackend (SetRGBA (Image b) x y (mix col (RGBAAt (Image b) x y)))
            (MSAA b) (blurSwap b) (clip b) (stencil b) (w b) (h b)
            ((x, y) :: blendLog b).

(** The per-pixel callback of [fillTrianglesNoAA]. *)
Definition paintNoAA (fn : float -> float -> RGBA) (x y : Z)
           (b : SoftwareBackend) : SoftwareBackend :=
  if AlphaAt (clip b) x y =? 0 then b
  else if 0 <? AlphaAt (stencil b) x y then b
  else
    let b := set_stencil b (SetAlpha (stencil b) x y 255) in
    let col := fn (float64_of_int x) (float64_of_int y) in
    if 0 <? A col then blend b x y col else b.

Definition fillTrianglesNoAA (b : SoftwareBackend) (pts : list BackendVec)
           (fn : float -> float -> RGBA) : SoftwareBackend :=
  iterateTriangles pts (fun tri b => fillTriangleNoAA b tri (paintNoAA fn)) b.

(** The per-pixel callback of [fillTrianglesMSAA], for the pixels whose
    sub-samples are all inside one triangle. *)
Definition paintFull (fn : float -> float -> RGBA) (x y : Z)
           (b : SoftwareBackend) : SoftwareBackend :=
  if AlphaAt (clip b) x y =? 0 then b
  else if 0 <? AlphaAt (stencil b) x y then b
  else
    let b := set_stencil b (SetAlpha (stencil b) x y 255) in
    let col := fn (float64_of_int x) (float64_of_int y) in
    if 0 <? A col then blend b x y col else b.

(** The inner loop [for j, px2 := range msaaPixels[i:]] of the averaging
    pass: the channel sums over the samples of pixel [(x, y)], each such
    sample marked as used by [ix = -1]. *)
Fixpoint sum_samples (fn : float -> float -> RGBA) (x y : Z)
         (pxs : list msaaPixel) (sums : Z * Z * Z * Z)
  : (Z * Z * Z * Z) * list msaaPixel :=
  match pxs with
  | [] => (sums, [])
  | px2 :: rest =>
      if negb (ix px2 =? x) || negb (iy px2 =? y) then
        let '(sums, rest) := sum_samples fn x y rest sums in
        (sums, px2 :: rest)
      else
        let '(mr, mg, mb, ma) := sums in
        let col := fn (fx px2) (fy px2) in
        let '(sums, rest) :=
          sum_samples fn x y rest (mr + R col, mg + G col, mb + B col, ma + A col) in
        (sums, mkMsaaPixel (-1) (iy px2) (fx px2) (fy px2) (tx px2) (ty px2) :: rest)
  end.

(** The averaging pass [for i, px := range msaaPixels]; [pxs] is
    [msaaPixels[i:]] at the time slot [i] is reached, the marks of the
    earlier rounds included. Go's integer division truncates; the sums are
    not negative. *)
Fixpoint average_samples (samples : Z) (fn : float -> float -> RGBA)
         (n : nat) (pxs : list msaaPixel) (b : SoftwareBackend) : SoftwareBackend :=
  match n, pxs with
  | S n', px :: rest =>
      if (ix px <? 0) || (AlphaAt (clip b) (ix px) (iy px) =? 0)
         || (0 <? AlphaAt (stencil b) (ix px) (iy px))
      then average_samples samples fn n' rest b
      else
        let b := set_stencil b (SetAlpha (stencil b) (ix px) (iy px) 255) in
        let '((mr, mg, mb, ma), marked) :=
          sum_samples fn (ix px) (iy px) (px :: rest) (0, 0, 0, 0) in
        let combined :=
          mkRGBA (uint8_of_int (Z.quot mr samples)) (uint8_of_int (Z.quot mg samples))
                 (uint8_of_int (Z.quot mb samples)) (uint8_of_int (Z.quot ma samples)) in
        average_samples samples fn n' (tl marked) (blend b (ix px) (iy px) combined)
  | _, _ => b
  end.

Definition fillTrianglesMSAA (b : SoftwareBackend) (pts : list BackendVec)
           (msaaLevel : Z) (fn : float -> float -> RGBA) : SoftwareBackend :=
  let '(msaaPixels, b) :=
    iterateTriangles pts
      (fun tri (acc : list msaaPixel * SoftwareBackend) =>
         fillTriangleMSAA (snd acc) tri msaaLevel (fst acc) (paintFull fn))
      ([], b) in
  let samples := (msaaLevel + 1) * (msaaLevel + 1) in
  average_samples samples fn (length msaaPixels) msaaPixels b.

Definition fillTriangles (b : SoftwareBackend) (pts : list BackendVec)
           (fn : float -> float -> RGBA) : SoftwareBackend :=
  let b := clearStencil b in
  if 0 <? MSAA b then fillTrianglesMSAA b pts (MSAA b) fn
  else fillTrianglesNoAA b pts fn.

(** ** Clearing and clipping *)

Definition Clear (b : SoftwareBackend) (pts : list BackendVec) : SoftwareBackend :=
  iterateTriangles pts (fun tri b =>
    fillTriangleNoAA b tri (fun x y b =>
      if AlphaAt (clip b) x y =? 0 then b
      else set_Image b (SetRGBA (Image b) x y transparent))) b.

(** The loop [for i := range p { if p2[i] == 0 { p[i] = 0 } }] over the two
    pixel arrays. *)
Fixpoint clip_pix (p p2 : list Z) : list Z :=
  match p, p2 with
  | v :: p', v2 :: p2' => (if v2 =? 0 then 0 else v) :: clip_pix p' p2'
  | _, _ => p
  end.

Definition Clip (b : SoftwareBackend) (pts : list BackendVec) : SoftwareBackend :=
  let b := clearStencil b in
  let b :=
    iterateTriangles pts (fun tri b =>
      fillTriangleNoAA b tri (fun x y b =>
        set_stencil b (SetAlpha (stencil b) x y 255))) b in
  set_clip b (mkRaster (clip_pix (Pix (clip b)) (Pix (stencil b)))
                       (Stride (clip b)) (Rect (clip b))).

(** ** Blur: three box passes per axis *)

(** The running channel sums [r, g, b, a] of a box pass. *)
Definition ChanSums : Set := (float * float * float * float)%type.

Definition sums_zero : ChanSums := (0, 0, 0, 0)%float.

Definition sums_add (s : ChanSums) (col : RGBA) : ChanSums :=
  let '(r, g, b, a) := s in
  (r + float64_of_int (R col), g + float64_of_int (G col),
   b + float64_of_int (B col), a + float64_of_int (A col))%float.

Definition sums_sub (s : ChanSums) (col : RGBA) : ChanSums :=
  let '(r, g, b, a) := s in
  (r - float64_of_int (R col), g - float64_of_int (G col),
   b - float64_of_int (B col), a - float64_of_int (A col))%float.

Definition sums_color (s : ChanSums) (factor : float) : RGBA :=
  let '(r, g, b, a) := s in
  mkRGBA (uint8_of_float (math_Round (r * factor)%float))
         (uint8_of_float (math_Round (g * factor)%float))
         (uint8_of_float (math_Round (b * factor)%float))
         (uint8_of_float (math_Round (a * factor)%float)).

(** The sliding window of one line. [at k] reads the source pixel at
    position [k] of the line and [put k col] writes the result there; [n] is
    the length of the line. The Go loop leaves when [x >= n-1], at the
    latest in round [max n 1], which is the fuel handed over. *)
Fixpoint box_slide (fuel : nat) (at_ : Z -> RGBA) (put : Z -> RGBA -> RGBAImage -> RGBAImage)
         (n size x : Z) (sums : ChanSums) (samples : Z) (result : RGBAImage) : RGBAImage :=
  match fuel with
  | O => result
  | S fuel' =>
      let factor := (1.0 / float64_of_int samples)%float in
      let result := put x (sums_color sums factor) result in
      if n - 1 <=? x then result
      else
        let '(sums, samples) :=
          if 0 <=? x - size then (sums_sub sums (at_ (x - size)), samples - 1)
          else (sums, samples) in
        let x := x + 1 in
        let '(sums, samples) :=
          if x + size <? n then (sums_add sums (at_ (x + size)), samples + 1)
          else (sums, samples) in
        box_slide fuel' at_ put n size x sums samples result
  end.

(** One line of a box pass. *)
Definition box_line (at_ : Z -> RGBA) (put : Z -> RGBA -> RGBAImage -> RGBAImage)
           (n size : Z) (result : RGBAImage) : RGBAImage :=
  if n <=? size then
    let sums := for_upto 0 (n - 1) (fun k s => sums_add s (at_ k)) sums_zero in
    let factor := (1.0 / float64_of_int n)%float in
    let col := sums_color sums factor in
    for_upto 0 (n - 1) (fun k res => put k col res) result
  else
    let sums := for_upto 0 size (fun k s => sums_add s (at_ k)) sums_zero in
    box_slide (Z.to_nat (Z.max n 1)) at_ put n size 0 sums (size + 1) result.

Definition box3x (img : RGBAImage) (size : Z) : RGBAImage :=
  let bounds := Rect img in
  let result := NewRGBA bounds in
  let bw := Dx bounds in
  let bh := Dy bounds in
  for_upto 0 (bh - 1) (fun y result =>
    box_line (fun x => RGBAAt img x y) (fun x col res => SetRGBA res x y col)
             bw size result) result.

Definition box3y (img : RGBAImage) (size : Z) : RGBAImage :=
  let bounds := Rect img in
  let result := NewRGBA bounds in
  let bw := Dx bounds in
  let bh := Dy bounds in
  for_upto 0 (bw - 1) (fun x result =>
    box_line (fun y => RGBAAt img x y) (fun y col res => SetRGBA res x y col)
             bh size result) result.

(** The three radii [sizea], [sizeb], [sizec] that [box3] derives from the
    blur size. *)
Definition box3_radii (size : float) : Z * Z * Z :=
  let size := (size * (1 - 1 / (size + 1)))%float in
  let fsize := math_Floor size in
  let sizea := int_of_float fsize in
  let sizeb := sizea in
  let sizec := sizea in
  let sizeb := if (0.333333333 <? size - fsize)%float then sizeb + 1 else sizeb in
  let sizec := if (0.666666666 <? size - fsize)%float then sizec + 1 else sizec in
  (sizea, sizeb, sizec).

Definition box3 (img : RGBAImage) (size : float) : RGBAImage :=
  let '(sizea, sizeb, sizec) := box3_radii size in
  let img := box3x img sizea in
  let img := box3x img sizeb in
  let img := box3x img sizec in
  let img := box3y img sizea in
  let img := box3y img sizeb in
  let img := box3y img sizec in
  img.

(** *** Descriptions of the blur passes *)

Inductive Axis : Set := Horizontal | Vertical.

Definition run_pass (img : RGBAImage) (pass : Axis * Z) : RGBAImage :=
  match fst pass with
  | Horizontal => box3x img (snd pass)
  | Vertical => box3y img (snd pass)
  end.

Definition run_passes (img : RGBAImage) (passes : list (Axis * Z)) : RGBAImage :=
  fold_left run_pass passes img.

(** Three radii from a size [s]: [floor s], then [floor s + 1] where the
    fractional remainder of [s] exceeds the first, respectively the second
    threshold. *)
Definition radii_of (third two_thirds s : float) : Z * Z * Z :=
  let base := int_of_float (math_Floor s) in
  let frac := (s - math_Floor s)%float in
  (base,
   if (third <? frac)%float then base + 1 else base,
   if (two_thirds <? frac)%float then base + 1 else base).

Definition passes_of (radii : Z * Z * Z) : list (Axis * Z) :=
  let '(ra, rb, rc) := radii in
  [(Horizontal, ra); (Horizontal, rb); (Horizontal, rc);
   (Vertical, ra); (Vertical, rb); (Vertical, rc)].

(** The radii as the blur size itself would give them, with thresholds 1/3
    and 2/3. *)
Definition radii_from_size (s : float) : Z * Z * Z :=
  radii_of (1 / 3)%float (2 / 3)%float s.

(** The size [box3] works with: [s * (1 - 1/(s+1))]. *)
Definition adjusted_size (s : float) : float := (s * (1 - 1 / (s + 1)))%float.

(** The radii of the adjusted size, with the thresholds of the program. *)
Definition radii_from_adjusted_size (s : float) : Z * Z * Z :=
  radii_of 0.333333333%float 0.666666666%float (adjusted_size s).

(** ** Compositing whole images: [draw.Draw] *)

Inductive Op : Set := Over | Src.

(** The clipping step of [draw.Draw]: [r] is cut to the destination bounds
    and to the source bounds moved to the destination, and the source point
    follows the corner of [r]. *)
Definition draw_clip (dst_bounds r src_bounds : Rectangle) (sp : Point) : Rectangle * Point :=
  let orig := Min r in
  let r := Intersect r dst_bounds in
  let r := Intersect r (Rect_Add src_bounds (Point_Sub orig sp)) in
  let dx := X (Min r) - X orig in
  let dy := Y (Min r) - Y orig in
  (r, mkPoint (X sp + dx) (Y sp + dy)).

(** One channel of the [Over] operator on 8-bit premultiplied pixels, in
    uint32 arithmetic: [sa] is the source alpha. *)
Definition over_channel (d s sa : Z) : Z :=
  let m := 65535 in
  let a := (m - sa * 257) * 257 in
  uint8_of_int (Z.shiftr (d * a / m + s * 257) 8).

Definition over_pixel (d s : RGBA) : RGBA :=
  mkRGBA (over_channel (R d) (R s) (A s)) (over_channel (G d) (G s) (A s))
         (over_channel (B d) (B s) (A s)) (over_channel (A d) (A s) (A s)).

(** [draw.Draw(dst, r, src, sp, op)] on RGBA images. Where the two images
    share pixels Go orders the copy so that a source pixel is read before
    it is overwritten; here [src] is the source as it is when the call
    starts. *)
Definition draw_Draw (dst : RGBAImage) (r : Rectangle) (src : RGBAImage)
           (sp : Point) (op : Op) : RGBAImage :=
  let '(r, sp) := draw_clip (Rect dst) r (Rect src) sp in
  if Empty r then dst
  else
    for_upto (Y (Min r)) (Y (Max r) - 1) (fun y d =>
      for_upto (X (Min r)) (X (Max r) - 1) (fun x d =>
        let s := RGBAAt src (X sp + (x - X (Min r))) (Y sp + (y - Y (Min r))) in
        SetRGBA d x y
          match op with
          | Src => s
          | Over => over_pixel (RGBAAt d x y) s
          end) d) dst.

(** ** Raw pixel access *)

(** [GetImageData]. The Go result shares its pixels with the framebuffer;
    the value here holds the pixels as they are at the time of the call. *)
Definition GetImageData (b : SoftwareBackend) (x y w_ h_ : Z) : RGBAImage :=
  SubImage (Image b) (image_Rect x y w_ h_).

Definition PutImageData (b : SoftwareBackend) (img : RGBAImage) (x y : Z) : SoftwareBackend :=
  set_Image b
    (draw_Draw (Image b) (image_Rect x y (Dx (Rect img)) (Dy (Rect img))) img ZP Src).

(** ** Blurred fills *)

Definition activateBlurTarget (b : SoftwareBackend) : SoftwareBackend :=
  let b := set_blurSwap b (Image b) in
  set_Image b (NewRGBA (Rect (Image b))).

Definition drawBlurred (b : SoftwareBackend) (size : float) : SoftwareBackend :=
  let blurred := box3 (Image b) size in
  let b := set_Image b (blurSwap b) in
  set_Image b (draw_Draw (Image b) (Rect (Image b)) blurred ZP Over).

(** ** Fill styles and [Fill] *)

(** [BackendMat] is [[6]float64]. *)
Definition BackendMat : Set := (float * float * float * float * float * float)%type.

Definition BackendMatIdentity : BackendMat := (1, 0, 0, 1, 0, 0)%float.

(** [tf != BackendMatIdentity]: some entry differs as a float. *)
Definition BackendMat_neq (m m' : BackendMat) : bool :=
  let '(m0, m1, m2, m3, m4, m5) := m in
  let '(n0, n1, n2, n3, n4, n5) := m' in
  negb ((m0 =? n0)%float && (m1 =? n1)%float && (m2 =? n2)%float &&
        (m3 =? n3)%float && (m4 =? n4)%float && (m5 =? n5)%float).

Definition MulMat (v : BackendVec) (m : BackendMat) : BackendVec :=
  let '(m0, m1, m2, m3, m4, m5) := m in
  (m0 * fst v + m2 * snd v + m4, m1 * fst v + m3 * snd v + m5)%float.

(** What a fill style paints with. The closures that [fillFunc] builds for a
    radial gradient and for an image pattern are taken as given functions
    from the pixel position to the colour. *)
Inductive PaintSource : Type :=
| SolidColor
| LinearGradient (data : BackendGradient)
| OtherSource (eval : float -> float -> RGBA).

Record BackendFillStyle : Type := mkFillStyle {
  style_Color : RGBA;
  style_Blur : float;
  style_Source : PaintSource;
  Gradient_X0 : float; Gradient_Y0 : float;
  Gradient_X1 : float; Gradient_Y1 : float
}.

Definition fillFunc (style : BackendFillStyle) : float -> float -> RGBA :=
  match style_Source style with
  | LinearGradient data =>
      let from := (Gradient_X0 style, Gradient_Y0 style) in
      let dir := (Gradient_X1 style - Gradient_X0 style,
                  Gradient_Y1 style - Gradient_Y0 style)%float in
      let dirlen := sqrt (fst dir * fst dir + snd dir * snd dir)%float in
      let dir := (fst dir / dirlen, snd dir / dirlen)%float in
      fun x y =>
        let pos := (x - fst from, y - snd from)%float in
        let r := ((fst pos * fst dir + snd pos * snd dir) / dirlen)%float in
        ColorAt data r
  | OtherSource eval => eval
  | SolidColor => fun _ _ => style_Color style
  end.

Definition Fill (b : SoftwareBackend) (style : BackendFillStyle) (pts : list BackendVec)
           (tf : BackendMat) (canOverlap : bool) : SoftwareBackend :=
  let ffn := fillFunc style in
  let pts :=
    if BackendMat_neq tf BackendMatIdentity then map (fun pt => MulMat pt tf) pts
    else pts in
  if (0 <? style_Blur style)%float then
    let b := activateBlurTarget b in
    let b := fillTriangles b pts ffn in
    drawBlurred b (style_Blur style)
  else fillTriangles b pts ffn.

(** ** The quad scan, for image and mask fills *)

Record Quad : Set := mkQuad {
  quad0 : BackendVec; quad1 : BackendVec; quad2 : BackendVec; quad3 : BackendVec
}.

Definition quadArea (quad : Quad) : float :=
  let leftv := (fst (quad1 quad) - fst (quad0 quad), snd (quad1 quad) - snd (quad0 quad))%float in
  let topv := (fst (quad3 quad) - fst (quad0 quad), snd (quad3 quad) - snd (quad0 quad))%float in
  abs (fst leftv * snd topv - snd leftv * fst topv)%float.

(** The edge basis of a quad: the normalized "left" and "top" vectors with
    their lengths. *)
Definition quad_basis (quad : Quad) : BackendVec * float * BackendVec * float :=
  let leftv := (fst (quad1 quad) - fst (quad0 quad), snd (quad1 quad) - snd (quad0 quad))%float in
  let leftLen := sqrt (fst leftv * fst leftv + snd leftv * snd leftv)%float in
  let leftv := (fst leftv / leftLen, snd leftv / leftLen)%float in
  let topv := (fst (quad3 quad) - fst (quad0 quad), snd (quad3 quad) - snd (quad0 quad))%float in
  let topLen := sqrt (fst topv * fst topv + snd topv * snd topv)%float in
  let topv := (fst topv / topLen, snd topv / topLen)%float in
  (leftv, leftLen, topv, topLen).

(** The parametric coordinates of the point at offset [(tfx, tfy)] from
    corner 0, before the division by the edge lengths. *)
Definition quad_param (leftv topv : BackendVec) (tfx tfy : float) : float * float :=
  if (abs (snd leftv) <? abs (fst leftv))%float then
    let tx := ((tfy - tfx * (snd leftv / fst leftv))
               / (snd topv - fst topv * (snd leftv / fst leftv)))%float in
    let ty := ((tfx - fst topv * tx) / fst leftv)%float in
    (tx, ty)
  else
    let tx := ((tfx - tfy * (fst leftv / snd leftv))
               / (fst topv - snd topv * (fst leftv / snd leftv)))%float in
    let ty := ((tfy - snd topv * tx) / snd leftv)%float in
    (tx, ty).

Definition quad_rows (bh : Z) (quad : Quad) : option (Z * Z) :=
  let q1 := snd (quad0 quad) in
  let q2 := snd (quad1 quad) in
  let q3 := snd (quad2 quad) in
  let q4 := snd (quad3 quad) in
  let minY := int_of_float (math_Floor (math_Min (math_Min q1 q2) (math_Min q3 q4))) in
  let maxY := int_of_float (math_Ceil (math_Max (math_Max q1 q2) (math_Max q3 q4))) in
  match (if minY <? 0 then Some 0 else if bh <=? minY then None else Some minY) with
  | None => None
  | Some minY =>
      match (if maxY <? 0 then None
             else if bh <=? maxY then Some (bh - 1) else Some maxY) with
      | None => None
      | Some maxY => Some (minY, maxY)
      end
  end.

Definition scanQuadNoAA {St : Type} (bw bh : Z) (quad : Quad)
           (fn : Z -> Z -> float -> float -> St -> St) (s : St) : St :=
  match quad_rows bh quad with
  | None => s
  | Some (minY, maxY) =>
      let '(leftv, leftLen, topv, topLen) := quad_basis quad in
      let tri1 := mkTri (quad0 quad) (quad1 quad) (quad2 quad) in
      let tri2 := mkTri (quad0 quad) (quad2 quad) (quad3 quad) in
      for_upto minY maxY (fun y s =>
        let '(lf1, rf1, out1) := triangleLR tri1 (float64_of_int y + 0.5)%float in
        let '(lf2, rf2, out2) := triangleLR tri2 (float64_of_int y + 0.5)%float in
        if out1 && out2 then s
        else
          let l := math_Min lf1 lf2 in
          let r := math_Max rf1 rf2 in
          match (if (l <? 0)%float then Some 0%float
                 else if (float64_of_int bw <? l)%float then None else Some l) with
          | None => s
          | Some l =>
              match (if (r <? 0)%float then None
                     else if (float64_of_int bw <? r)%float
                          then Some (float64_of_int bw) else Some r) with
              | None => s
              | Some r =>
                  if (r <=? l)%float then s
                  else
                    let tfy := (float64_of_int y + 0.5 - snd (quad0 quad))%float in
                    let fl := int_of_float (math_Floor l) in
                    let cr := int_of_float (math_Ceil r) in
                    for_upto fl cr (fun x s =>
                      let fx := (float64_of_int x + 0.5)%float in
                      if (fx <? l)%float || (r <=? fx)%float then s
                      else
                        let tfx := (fx - fst (quad0 quad))%float in
                        let '(tx, ty) := quad_param leftv topv tfx tfy in
                        fn x y (tx / topLen)%float (ty / leftLen)%float s) s
              end
          end) s
  end.

(** The first loop of [fillQuadMSAA] over the sub-scanlines of a row. *)
Definition quad_sub_spans (bw : Z) (tri1 tri2 : Tri) (sys : list float)
  : list (float * float) * (bool * float * float) :=
  fold_left (fun (acc : list (float * float) * (bool * float * float)) sy =>
    let '(spans, (allOut, minL, maxR)) := acc in
    let '(lf1, rf1, out1) := triangleLR tri1 sy in
    let '(lf2, rf2, out2) := triangleLR tri2 sy in
    let l := math_Min lf1 lf2 in
    let r := math_Max rf1 rf2 in
    let out := out1 || out2 in
    let '(l, out) :=
      if (l <? 0)%float then (0%float, out)
      else if (float64_of_int bw <? l)%float then (float64_of_int bw, true)
      else (l, out) in
    let '(r, out) :=
      if (r <? 0)%float then (0%float, true)
      else if (float64_of_int bw <? r)%float then (float64_of_int bw, out)
      else (r, out) in
    let out := if (r <=? l)%float then true else out in
    let summary :=
      if negb out then (false, math_Min minL l, math_Max maxR r)
      else (allOut, minL, maxR) in
    (spans ++ [(l, r)], summary))
  sys ([], (true, MaxFloat64, 0%float)).

Definition quad_collect_samples (quad : Quad) (leftv : BackendVec) (leftLen : float)
           (topv : BackendVec) (topLen : float) (x y : Z)
           (spans : list (float * float)) (sxs sys : list float)
           (msaaPixels : list msaaPixel) : list msaaPixel :=
  fold_left (fun acc (row : float * float * float) =>
    let '(l, r, sy) := row in
    fold_left (fun acc sx =>
      if (l <=? sx)%float && (sx <? r)%float then
        let tfx := (sx - fst (quad0 quad))%float in
        let tfy := (sy - snd (quad0 quad))%float in
        let '(tx, ty) := quad_param leftv topv tfx tfy in
        addMSAAPixel acc (mkMsaaPixel x y sx sy (tx / topLen)%float (ty / leftLen)%float)
      else acc) sxs acc)
  (combine spans sys) msaaPixels.

Definition scanQuadMSAA {St : Type} (bw bh : Z) (quad : Quad) (msaaLevel : Z)
           (fn : Z -> Z -> float -> float -> St -> St)
           (acc : list msaaPixel * St) : list msaaPixel * St :=
  let msaaStep := (1.0 / float64_of_int (msaaLevel + 1))%float in
  let n := Z.to_nat (msaaLevel + 1) in
  match quad_rows bh quad with
  | None => acc
  | Some (minY, maxY) =>
      let '(leftv, leftLen, topv, topLen) := quad_basis quad in
      let tri1 := mkTri (quad0 quad) (quad1 quad) (quad2 quad) in
      let tri2 := mkTri (quad0 quad) (quad2 quad) (quad3 quad) in
      for_upto minY maxY (fun y acc =>
        let sys := substeps n (float64_of_int y + msaaStep * 0.5)%float msaaStep in
        let '(spans, (allOut, minL, maxR)) := quad_sub_spans bw tri1 tri2 sys in
        if allOut then acc
        else
          let fl := int_of_float (math_Floor minL) in
          let cr := int_of_float (math_Ceil maxR) in
          for_upto fl cr (fun x (acc : list msaaPixel * St) =>
            let sxs := substeps n (float64_of_int x + msaaStep * 0.5)%float msaaStep in
            if all_in spans sxs then
              let tfx := (float64_of_int x + 0.5 - fst (quad0 quad))%float in
              let tfy := (float64_of_int y + 0.5 - snd (quad0 quad))%float in
              let '(tx, ty) := quad_param leftv topv tfx tfy in
              (fst acc, fn x y (tx / topLen)%float (ty / leftLen)%float (snd acc))
            else
              (quad_collect_samples quad leftv leftLen topv topLen x y spans sxs sys (fst acc),
               snd acc)) acc) acc
  end.

(** The per-pixel callback of [fillQuad], the same in both of its branches. *)
Definition paintQuad (fn : float -> float -> float -> float -> RGBA)
           (x y : Z) (tx_ ty_ : float) (b : SoftwareBackend) : SoftwareBackend :=
  if AlphaAt (clip b) x y =? 0 then b
  else if 0 <? AlphaAt (stencil b) x y then b
  else
    let b := set_stencil b (SetAlpha (stencil b) x y 255) in
    let col := fn (float64_of_int x + 0.5)%float (float64_of_int y + 0.5)%float tx_ ty_ in
    if 0 <? A col then blend b x y col else b.

(** The averaging pass of [fillQuad]: as for triangles, with the parametric
    coordinates of each sample handed to the colour function. *)
Fixpoint quad_sum_samples (fn : float -> float -> float -> float -> RGBA) (x y : Z)
         (pxs : list msaaPixel) (sums : Z * Z * Z * Z)
  : (Z * Z * Z * Z) * list msaaPixel :=
  match pxs with
  | [] => (sums, [])
  | px2 :: rest =>
      if negb (ix px2 =? x) || negb (iy px2 =? y) then
        let '(sums, rest) := quad_sum_samples fn x y rest sums in
        (sums, px2 :: rest)
      else
        let '(mr, mg, mb, ma) := sums in
        let col := fn (fx px2) (fy px2) (tx px2) (ty px2) in
        let '(sums, rest) :=
          quad_sum_samples fn x y rest (mr + R col, mg + G col, mb + B col, ma + A col) in
        (sums, mkMsaaPixel (-1) (iy px2) (fx px2) (fy px2) (tx px2) (ty px2) :: rest)
  end.

Fixpoint quad_average_samples (samples : Z) (fn : float -> float -> float -> float -> RGBA)
         (n : nat) (pxs : list msaaPixel) (b : SoftwareBackend) : SoftwareBackend :=
  match n, pxs with
  | S n', px :: rest =>
      if (ix px <? 0) || (AlphaAt (clip b) (ix px) (iy px) =? 0)
         || (0 <? AlphaAt (stencil b) (ix px) (iy px))
      then quad_average_samples samples fn n' rest b
      else
        let b := set_stencil b (SetAlpha (stencil b) (ix px) (iy px) 255) in
        let '((mr, mg, mb, ma), marked) :=
          quad_sum_samples fn (ix px) (iy px) (px :: rest) (0, 0, 0, 0) in
        let combined :=
          mkRGBA (uint8_of_int (Z.quot mr samples)) (uint8_of_int (Z.quot mg samples))
                 (uint8_of_int (Z.quot mb samples)) (uint8_of_int (Z.quot ma samples)) in
        quad_average_samples samples fn n' (tl marked) (blend b (ix px) (iy px) combined)
  | _, _ => b
  end.

Definition fillQuad (b : SoftwareBackend) (pts : Quad)
           (fn : float -> float -> float -> float -> RGBA) : SoftwareBackend :=
  let b := clearStencil b in
  if 0 <? MSAA b then
    let '(msaaPixels, b) := scanQuadMSAA (w b) (h b) pts (MSAA b) (paintQuad fn) ([], b) in
    let samples := (MSAA b + 1) * (MSAA b + 1) in
    quad_average_samples samples fn (length msaaPixels) msaaPixels b
  else scanQuadNoAA (w b) (h b) pts (paintQuad fn) b.

(** ** Mask fills and image blits *)

Definition alphaColor (col : RGBA) (alpha : Z) : RGBA :=
  let '(ir, ig, ib, _) := RGBA_RGBA col in
  let a2 := (float64_of_int alpha / 255.0)%float in
  let r := (float64_of_int ir * a2 / 65535.0)%float in
  let g := (float64_of_int ig * a2 / 65535.0)%float in
  let b := (float64_of_int ib * a2 / 65535.0)%float in
  mkRGBA (uint8_of_float (r * 255.0)%float) (uint8_of_float (g * 255.0)%float)
         (uint8_of_float (b * 255.0)%float) 255.

Definition FillImageMask (b : SoftwareBackend) (style : BackendFillStyle)
           (mask : AlphaImage) (pts : Quad) : SoftwareBackend :=
  let ffn := fillFunc style in
  let mw := float64_of_int (Dx (Rect mask)) in
  let mh := float64_of_int (Dy (Rect mask)) in
  fillQuad b pts (fun x y sx2 sy2 =>
    let sxi := int_of_float (mw * sx2)%float in
    let syi := int_of_float (mh * sy2)%float in
    let a := AlphaAt mask sxi syi in
    if a =? 0 then transparent
    else alphaColor (ffn x y) a).

(** [toRGBA] on a [color.RGBA]. *)
Definition toRGBA (src : RGBA) : RGBA :=
  let '(ir, ig, ib, ia) := RGBA_RGBA src in
  mkRGBA (uint8_of_int (Z.shiftr ir 8)) (uint8_of_int (Z.shiftr ig 8))
         (uint8_of_int (Z.shiftr ib 8)) (uint8_of_int (Z.shiftr ia 8)).

(** [SoftwareImage]: the mip levels (each an RGBA image here) and the
    deletion mark. [mips] is never empty: level 0 is the source bitmap. *)
Record SoftwareImage : Type := mkSoftwareImage {
  mips : list RGBAImage;
  deleted : bool
}.

Definition mip_default : RGBAImage := mkRaster [] 0 ZR.

(** The loop of [DrawImage] choosing the mip level whose pixel count is
    closest to [area]; it yields [(mip, mipW, mipH)]. *)
Definition closest_mip (levels : list RGBAImage) (area : float)
           (start : RGBAImage * Z * Z) : RGBAImage * Z * Z :=
  snd (fold_left (fun (acc : float * (RGBAImage * Z * Z)) img =>
         let bw := Dx (Rect img) in
         let bh := Dy (Rect img) in
         let dist := abs (float64_of_int (bw * bh) - area)%float in
         if (dist <? fst acc)%float then (dist, (img, bw, bh)) else acc)
       levels (MaxFloat64, start)).

Definition DrawImage (b : SoftwareBackend) (simg : SoftwareImage)
           (sx sy sw sh : float) (pts : Quad) (alpha : float) : SoftwareBackend :=
  if deleted simg then b
  else
    let mip0 := hd mip_default (mips simg) in
    let bw := Dx (Rect mip0) in
    let bh := Dy (Rect mip0) in
    let factor := (float64_of_int (bw * bh) / (sw * sh))%float in
    let area := (quadArea pts * factor)%float in
    let '(mip, mipW, mipH) := closest_mip (mips simg) area (mip0, bw, bh) in
    let mipScaleX := (float64_of_int mipW / float64_of_int bw)%float in
    let mipScaleY := (float64_of_int mipH / float64_of_int bh)%float in
    let sx := (sx * mipScaleX)%float in
    let sy := (sy * mipScaleY)%float in
    let sw := (sw * mipScaleX)%float in
    let sh := (sh * mipScaleY)%float in
    fillQuad b pts (fun x y tx_ ty_ =>
      let imgx := (sx + sw * tx_)%float in
      let imgy := (sy + sh * ty_)%float in
      let imgxf := math_Floor imgx in
      let imgyf := math_Floor imgy in
      toRGBA (RGBAAt mip (int_of_float imgxf) (int_of_float imgyf))).

(** ** Layout of the buffers of a backend *)

(** A buffer laid out the way [image.NewRGBA] and [image.NewAlpha] lay out
    the bounds [(0,0)-(bw,bh)]. *)
Definition shaped {T : Type} (bw bh : Z) (p : Raster T) : Prop :=
  Rect p = mkRectangle (mkPoint 0 0) (mkPoint bw bh) /\
  Stride p = bw /\ Z.of_nat (length (Pix p)) = bw * bh.

Definition in_bounds (bw bh x y : Z) : Prop := 0 <= x < bw /\ 0 <= y < bh.

Definition wf_backend (b : SoftwareBackend) : Prop :=
  0 <= w b /\ 0 <= h b /\ MSAA b <= 4 /\
  shaped (w b) (h b) (Image b) /\
  shaped (w b) (h b) (clip b) /\
  shaped (w b) (h b) (stencil b).

(** ** The pixels a scan reports *)

(** A callback that only writes down the pixel it is called with. *)
Definition record_pixel (x y : Z) (t : list (Z * Z)) : list (Z * Z) := t ++ [(x, y)].

(** The pixels [fillTriangleNoAA] passes to its callback, in order. *)
Definition pixelsNoAA (bw bh : Z) (tri : Tri) : list (Z * Z) :=
  scanTriangleNoAA bw bh tri record_pixel [].

(** The pixels the non-anti-aliased scan of a whole point list reports. *)
Definition coverageNoAA (bw bh : Z) (pts : list BackendVec) : list (Z * Z) :=
  iterateTriangles pts (fun tri t => scanTriangleNoAA bw bh tri record_pixel t) [].

(** The multi-sample scan of a whole point list: the sample list it builds
    and the pixels it reports as fully inside one triangle. *)
Definition scanMSAA (bw bh msaaLevel : Z) (pts : list BackendVec)
  : list msaaPixel * list (Z * Z) :=
  iterateTriangles pts
    (fun tri acc => scanTriangleMSAA bw bh tri msaaLevel record_pixel acc) ([], []).

Definition samplesMSAA (bw bh msaaLevel : Z) (pts : list BackendVec) : list msaaPixel :=
  fst (scanMSAA bw bh msaaLevel pts).

Definition fullPixelsMSAA (bw bh msaaLevel : Z) (pts : list BackendVec) : list (Z * Z) :=
  snd (scanMSAA bw bh msaaLevel pts).

(** The coverage mask [Clip] rasterizes: the stencil after the scan of
    [pts] over a cleared stencil. *)
Definition shape_mask (bw bh : Z) (pts : list BackendVec) : AlphaImage :=
  iterateTriangles pts
    (fun tri m => scanTriangleNoAA bw bh tri (fun x y m => SetAlpha m x y 255) m)
    (NewAlpha (image_Rect 0 0 bw bh)).

(** What one guarded paint step leaves in pixel [(x, y)] when it is offered
    the colour [col]: nothing changes under a zero clip or a set stencil,
    nor for a colour with zero alpha. *)
Definition painted (b : SoftwareBackend) (x y : Z) (col : RGBA) : RGBA :=
  if AlphaAt (clip b) x y =? 0 then RGBAAt (Image b) x y
  else if 0 <? AlphaAt (stencil b) x y then RGBAAt (Image b) x y
  else if 0 <? A col then mix col (RGBAAt (Image b) x y)
  else RGBAAt (Image b) x y.

(** Calling [fn] on the pixels of a list, in order. *)
Definition run_pixels {St : Type} (fn : Z -> Z -> St -> St) (s : St)
           (pixels : list (Z * Z)) : St :=
  fold_left (fun s p => fn (fst p) (snd p) s) pixels s.

(** The body shared by the per-pixel callbacks, for a pixel that is offered
    the colour [col]. *)
Definition guarded_blend (b : SoftwareBackend) (x y : Z) (col : RGBA) : SoftwareBackend :=
  if AlphaAt (clip b) x y =? 0 then b
  else if 0 <? AlphaAt (stencil b) x y then b
  else
    let b := set_stencil b (SetAlpha (stencil b) x y 255) in
    if 0 <? A col then blend b x y col else b.

(** All buffers of the backend have the layout of a [bw] by [bh] buffer. *)
Definition layout (bw bh : Z) (b : SoftwareBackend) : Prop :=
  w b = bw /\ h b = bh /\
  shaped bw bh (Image b) /\ shaped bw bh (clip b) /\ shaped bw bh (stencil b).

(** The pixels blended since the state [b0], none of them twice, each with
    its stencil bit set. *)
Definition blended_once (b0 b : SoftwareBackend) : Prop :=
  exists new,
    blendLog b = new ++ blendLog b0 /\ NoDup new /\
    forall p, In p new -> 0 < AlphaAt (stencil b) (fst p) (snd p).

(** The step of the averaging pass on a pixel that passed its guard: the
    stencil bit is set and the averaged colour is blended. *)
Definition marked_blend (b : SoftwareBackend) (x y : Z) (col : RGBA) : SoftwareBackend :=
  blend (set_stencil b (SetAlpha (stencil b) x y 255)) x y col.

(** ** Averages over the samples of a pixel *)

(** The samples of pixel [(x, y)] in a sample list. *)
Definition pixel_samples (x y : Z) (pxs : list msaaPixel) : list msaaPixel :=
  filter (fun px => (ix px =? x) && (iy px =? y)) pxs.

(** The sample list with the samples of pixel [(x, y)] marked as used. *)
Definition mark_used (x y : Z) (pxs : list msaaPixel) : list msaaPixel :=
  map (fun px =>
         if (ix px =? x) && (iy px =? y)
         then mkMsaaPixel (-1) (iy px) (fx px) (fy px) (tx px) (ty px)
         else px) pxs.

(** The sum of one channel over a list of colours. *)
Definition channel_sum (sel : RGBA -> Z) (cols : list RGBA) : Z :=
  fold_right (fun col acc => sel col + acc) 0 cols.

(** The sum of the colours divided, channel by channel, by the total number
    of sub-samples of a pixel: the colour weighted by the coverage. *)
Definition coverage_weighted (samples : Z) (cols : list RGBA) : RGBA :=
  mkRGBA (uint8_of_int (Z.quot (channel_sum R cols) samples))
         (uint8_of_int (Z.quot (channel_sum G cols) samples))
         (uint8_of_int (Z.quot (channel_sum B cols) samples))
         (uint8_of_int (Z.quot (channel_sum A cols) samples)).

(** The unweighted mean of a list of colours: the sum divided by the number
    of colours in the list. *)
Definition unweighted_mean (cols : list RGBA) : RGBA :=
  coverage_weighted (Z.of_nat (length cols)) cols.

(** The colours the paint function gives at the positions of the samples. *)
Definition sample_colors (fn : float -> float -> RGBA) (pxs : list msaaPixel) : list RGBA :=
  map (fun px => fn (fx px) (fy px)) pxs.

(** ** Sample inputs *)

Definition unit_square : list BackendVec := [(0, 0); (2, 0); (2, 2); (0, 2)]%float.
Definition wide_strip : list BackendVec := [(1, 0); (4, 0); (4, 1); (1, 1)]%float.
Definition square4 : list BackendVec := [(0, 0); (4, 0); (4, 4); (0, 4)]%float.
Definition corner_triangle : list BackendVec := [(0, 0); (4, 0); (0, 4)]%float.
Definition red : RGBA := mkRGBA 255 0 0 255.
Definition solid_red : float -> float -> RGBA := fun _ _ => red.

(** A horizontal ramp from opaque black at [x = 0] to opaque white at
    [x = 4]. *)
Definition gray_ramp : BackendGradient :=
  [mkStop 0 (mkRGBA 0 0 0 255); mkStop 1 (mkRGBA 255 255 255 255)].
Definition ramp_style : BackendFillStyle :=
  mkFillStyle transparent 0 (LinearGradient gray_ramp) 0 0 4 0.

(** Membership of a pixel in a list, as a test. *)
Definition pixel_eqb (p q : Z * Z) : bool := (fst p =? fst q) && (snd p =? snd q).
Definition has_pixel (p : Z * Z) (l : list (Z * Z)) : bool := existsb (pixel_eqb p) l.

(** ** Well-formed colours in images and paints *)

(** Every pixel of the image holds 8-bit channels. *)
Definition wf_image (img : RGBAImage) : Prop := Forall wf_color (Pix img).

(** The paint function yields 8-bit channels everywhere. *)
Definition wf_paint (fn : float -> float -> RGBA) : Prop := forall x y, wf_color (fn x y).

Definition wf_style (style : BackendFillStyle) : Prop :=
  match style_Source style with
  | SolidColor => wf_color (style_Color style)
  | LinearGradient data => Forall (fun stop => wf_color (Color stop)) data
  | OtherSource eval => wf_paint eval
  end.

(** The alpha of every pixel of [b]'s framebuffer is at least what it is in
    the image [img0]. *)
Definition alpha_grows (img0 : RGBAImage) (b : SoftwareBackend) : Prop :=
  wf_image (Image b) /\
  forall x y, A (RGBAAt img0 x y) <= A (RGBAAt (Image b) x y).

(** The alpha that [draw.Over] computes is not below the destination's. *)
Definition over_alpha_agrees (d s : Z) : bool := d <=? over_channel d s s.

Definition white : RGBA := mkRGBA 255 255 255 255.

(** Three stops in non-decreasing order spanning [0, 1], two of them at 0. *)
Definition two_stops_at_zero : BackendGradient :=
  [mkStop 0 (mkRGBA 255 0 0 255); mkStop 0 (mkRGBA 0 0 255 255);
   mkStop 1 (mkRGBA 0 255 0 255)].

(** A row of five pixels, the middle one white. *)
Definition dot5 : RGBAImage :=
  mkRaster [transparent; transparent; white; transparent; transparent] 5
           (image_Rect 0 0 5 1).

(** A backend whose framebuffer is one row of five different pixels. *)
Definition strip5 : SoftwareBackend :=
  set_Image (NewBackend 5 1)
    (mkRaster [mkRGBA 10 0 0 255; mkRGBA 20 0 0 255; mkRGBA 30 0 0 255;
               mkRGBA 40 0 0 255; mkRGBA 50 0 0 255] 5 (image_Rect 0 0 5 1)).

(** A triangle whose x coordinates are not numbers. *)
Definition nan_triangle : Tri := mkTri (nan, 0%float) (nan, 10%float) (nan, 5%float).
Definition nan_points : list BackendVec := [(nan, 0%float); (nan, 10%float); (nan, 5%float)].

(* ================================================================== *)
(** * Properties *)
(* ================================================================== *)

(** ** Finite tables *)

Lemma u8_values_complete (v : Z) : is_uint8 v -> In v u8_values.
Proof.
  intros Hv. unfold u8_values.
  replace v with (Z.of_nat (Z.to_nat v)) by (unfold is_uint8 in Hv; lia).
  apply in_map, in_seq. unfold is_uint8 in Hv. lia.
Qed.

Lemma u8_table_complete (v : Z) : is_uint8 v -> In (v, unit_of_u8 v) u8_table.
Proof.
  intros Hv. unfold u8_table.
  apply (in_map (fun v => (v, unit_of_u8 v))), u8_values_complete, Hv.
Qed.

Lemma alpha_table_ok :
  forallb (fun p1 => forallb (alpha_agrees p1) u8_table) u8_table = true.
Proof. vm_cast_no_check (eq_refl true). Qed.

Lemma straight_table_ok : forallb straight_agrees u8_values = true.
Proof. vm_cast_no_check (eq_refl true). Qed.

Lemma unit_of_u8_straight (v : Z) : is_uint8 v -> unit_of_u8 v = straight v.
Proof.
  intros Hv.
  apply Leibniz.eqb_spec.
  exact (proj1 (forallb_forall _ _) straight_table_ok v (u8_values_complete v Hv)).
Qed.

Lemma alpha_of_units_exact (a1 a2 : Z) :
  is_uint8 a1 -> is_uint8 a2 ->
  alpha_of_units (unit_of_u8 a1) (unit_of_u8 a2) = mix_alpha_exact a1 a2.
Proof.
  intros H1 H2.
  pose proof (proj1 (forallb_forall _ _) alpha_table_ok _ (u8_table_complete a1 H1)) as H.
  pose proof (proj1 (forallb_forall _ _) H _ (u8_table_complete a2 H2)) as H'.
  apply Z.eqb_eq. exact H'.
Qed.

(** ** The compositor *)

Lemma mix_channels (s d : RGBA) :
  mix s d =
  mkRGBA (round255 ((unit_of_u8 (R s) - unit_of_u8 (R d)) * unit_of_u8 (A s) + unit_of_u8 (R d))%float)
         (round255 ((unit_of_u8 (G s) - unit_of_u8 (G d)) * unit_of_u8 (A s) + unit_of_u8 (G d))%float)
         (round255 ((unit_of_u8 (B s) - unit_of_u8 (B d)) * unit_of_u8 (A s) + unit_of_u8 (B d))%float)
         (alpha_of_units (unit_of_u8 (A s)) (unit_of_u8 (A d))).
Proof. destruct s, d. reflexivity. Qed.

Lemma mix_alpha_exact_bounds (a1 a2 : Z) :
  is_uint8 a1 -> is_uint8 a2 ->
  a2 <= mix_alpha_exact a1 a2 /\ is_uint8 (mix_alpha_exact a1 a2).
Proof.
  unfold is_uint8, mix_alpha_exact. intros H1 H2.
  assert (Hq : 0 <= (2 * ((a1 - a2) * a1 + 255 * a2) + 255) / 510 < 256).
  { split.
    - apply Z.div_pos; nia.
    - apply Z.div_lt_upper_bound; nia. }
  lia.
Qed.

Example mix_half_red_over_clear :
  mix (mkRGBA 255 0 0 128) transparent = mkRGBA 128 0 0 64.
Proof. vm_compute. reflexivity. Qed.

(** ** Gradients *)

Example ColorAt_midgray :
  ColorAt [mkStop 0 (mkRGBA 0 0 0 255); mkStop 1 (mkRGBA 255 255 255 255)] 0.5
  = mkRGBA 128 128 128 255.
Proof. vm_compute. reflexivity. Qed.

Example ColorAt_duplicate_start :
  ColorAt [mkStop 0 (mkRGBA 255 0 0 255); mkStop 0 (mkRGBA 0 0 255 255);
           mkStop 1 (mkRGBA 0 255 0 255)] 0
  = mkRGBA 0 0 255 255.
Proof. vm_compute. reflexivity. Qed.

(** *** Facts on [float64] used by the gradient *)

Lemma Prim2SF_zero : Prim2SF 0 = S754_zero false.
Proof. reflexivity. Qed.

Lemma ltb_zero_cases (q : float) :
  (0 <? q)%float = true ->
  Prim2SF q = S754_infinity false \/ exists m e, Prim2SF q = S754_finite false m e.
Proof.
  rewrite ltb_spec, Prim2SF_zero.
  destruct (Prim2SF q) as [s | s | | s m e]; cbn; try discriminate.
  - destruct s; [discriminate | now left].
  - destruct s; [discriminate | right; eauto].
Qed.

Lemma sub_zero_of_pos (q : float) : (0 <? q)%float = true -> (q - 0)%float = q.
Proof.
  intros H. apply Prim2SF_inj. rewrite sub_spec, Prim2SF_zero.
  destruct (ltb_zero_cases q H) as [-> | (m & e & ->)]; reflexivity.
Qed.

Lemma zero_div_of_pos (q : float) : (0 <? q)%float = true -> (0 / q)%float = 0%float.
Proof.
  intros H. apply Prim2SF_inj. rewrite div_spec, Prim2SF_zero.
  destruct (ltb_zero_cases q H) as [-> | (m & e & ->)]; reflexivity.
Qed.

Lemma f8_values_complete (v : Z) : is_uint8 v -> In (float64_of_int v) f8_values.
Proof. intros Hv. apply in_map, u8_values_complete, Hv. Qed.

Lemma lerp0_table_ok :
  forallb (fun fa => forallb (lerp0_agrees fa) f8_values) f8_values = true.
Proof. vm_cast_no_check (eq_refl true). Qed.

Lemma round_table_ok : forallb round_agrees u8_values = true.
Proof. vm_cast_no_check (eq_refl true). Qed.

Lemma lerp_at_zero (ca cb : Z) :
  is_uint8 ca -> is_uint8 cb ->
  uint8_of_float (math_Round ((float64_of_int ca - float64_of_int cb) * 0
                              + float64_of_int cb)%float) = cb.
Proof.
  intros Ha Hb.
  pose proof (proj1 (forallb_forall _ _) lerp0_table_ok _ (f8_values_complete ca Ha)) as H.
  pose proof (proj1 (forallb_forall _ _) H _ (f8_values_complete cb Hb)) as H'.
  apply Leibniz.eqb_spec in H'. rewrite H'.
  apply Z.eqb_eq.
  exact (proj1 (forallb_forall _ _) round_table_ok _ (u8_values_complete cb Hb)).
Qed.

(** *** The scan over the stops *)

Lemma scan_stops_none (g : BackendGradient) (pos : float) (i b : Z) :
  Forall (fun s => (pos <? Pos s)%float = false) g ->
  scan_stops g pos i b =
  (match g with [] => b | _ => i + Z.of_nat (length g) - 1 end, -1).
Proof.
  intros H. revert i b. induction H as [| s g Hs Hg IH]; intros i b; cbn [scan_stops].
  - reflexivity.
  - rewrite Hs, IH. destruct g; cbn [length]; f_equal; lia.
Qed.

Lemma scan_stops_found (pre : BackendGradient) (a : BackendGradientStop)
      (post : BackendGradient) (pos : float) (i b : Z) :
  Forall (fun s => (pos <? Pos s)%float = false) pre ->
  (pos <? Pos a)%float = true ->
  scan_stops (pre ++ a :: post) pos i b =
  (match pre with [] => b | _ => i + Z.of_nat (length pre) - 1 end,
   i + Z.of_nat (length pre)).
Proof.
  intros H Ha. revert i b. induction H as [| s g Hs Hg IH]; intros i b; cbn [scan_stops app].
  - rewrite Ha. cbn. f_equal. lia.
  - rewrite Hs, IH. destruct g; cbn [length]; f_equal; lia.
Qed.

Lemma stop_at_app_last (pre : BackendGradient) (b : BackendGradientStop)
      (post : BackendGradient) :
  stop_at (pre ++ b :: post) (Z.of_nat (length pre)) = b.
Proof.
  unfold stop_at. rewrite Nat2Z.id, app_nth2, Nat.sub_diag by lia. reflexivity.
Qed.

Lemma stop_at_last (g : BackendGradient) :
  g <> [] -> stop_at g (Z.of_nat (length g) - 1) = last g stop_default.
Proof.
  intros Hg. destruct (exists_last Hg) as (pre & s & ->).
  rewrite last_last, length_app. cbn [length].
  replace (Z.of_nat (length pre + 1) - 1) with (Z.of_nat (length pre)) by lia.
  apply stop_at_app_last.
Qed.

Lemma ColorAt_lerp_stops (g : BackendGradient) (pos : float) (bi ai : Z) :
  2 <= Z.of_nat (length g) ->
  scan_stops g pos 0 (-1) = (bi, ai) -> bi <> -1 -> ai <> -1 ->
  ColorAt g pos = lerp_stops (stop_at g bi) (stop_at g ai) pos.
Proof.
  intros Hlen Hscan Hb Ha. unfold ColorAt.
  destruct (Z.of_nat (length g) =? 0) eqn:E0; [lia|].
  destruct (Z.of_nat (length g) =? 1) eqn:E1; [lia|].
  rewrite Hscan.
  destruct (bi =? -1) eqn:Eb; [lia|].
  destruct (ai =? -1) eqn:Ea; [lia|].
  reflexivity.
Qed.

Lemma ColorAt_bracket (pre : BackendGradient) (b a : BackendGradientStop)
      (post : BackendGradient) (pos : float) :
  Forall (fun s => (pos <? Pos s)%float = false) (pre ++ [b]) ->
  (pos <? Pos a)%float = true ->
  ColorAt (pre ++ b :: a :: post) pos = lerp_stops b a pos.
Proof.
  intros Hpre Ha.
  assert (Hlen : length (pre ++ [b]) = S (length pre))
    by (rewrite length_app; cbn; lia).
  assert (Hs : scan_stops ((pre ++ [b]) ++ a :: post) pos 0 (-1)
               = (Z.of_nat (length pre), Z.of_nat (length (pre ++ [b])))).
  { rewrite (scan_stops_found (pre ++ [b]) a post pos 0 (-1) Hpre Ha).
    rewrite Hlen.
    destruct (pre ++ [b]) eqn:E; [destruct pre; discriminate|].
    f_equal; lia. }
  assert (Hlen2 : 2 <= Z.of_nat (length ((pre ++ [b]) ++ a :: post))).
  { rewrite length_app, Hlen. cbn [length]. lia. }
  assert (Hg : pre ++ b :: a :: post = (pre ++ [b]) ++ a :: post)
    by (rewrite <- app_assoc; reflexivity).
  rewrite Hg, (ColorAt_lerp_stops _ pos _ _ Hlen2 Hs) by lia.
  f_equal.
  - rewrite <- Hg. apply stop_at_app_last.
  - apply stop_at_app_last.
Qed.

Lemma ColorAt_below (g : BackendGradient) (pos : float) :
  2 <= Z.of_nat (length g) ->
  (pos <? Pos (hd stop_default g))%float = true ->
  ColorAt g pos = Color (hd stop_default g).
Proof.
  intros Hlen H. destruct g as [| s g]; [cbn in Hlen; lia|].
  cbn [hd] in *. unfold ColorAt.
  destruct (Z.of_nat (length (s :: g)) =? 0) eqn:E0; [lia|].
  destruct (Z.of_nat (length (s :: g)) =? 1) eqn:E1; [lia|].
  cbn [scan_stops]. rewrite H. reflexivity.
Qed.

Lemma ColorAt_above (g : BackendGradient) (pos : float) :
  g <> [] ->
  Forall (fun s => (pos <? Pos s)%float = false) g ->
  ColorAt g pos = Color (last g stop_default).
Proof.
  intros Hg H. unfold ColorAt.
  destruct (Z.eqb_spec (Z.of_nat (length g)) 0) as [E0 | E0].
  { destruct g; [congruence | cbn [length] in E0; lia]. }
  destruct (Z.eqb_spec (Z.of_nat (length g)) 1) as [E1 | E1].
  { destruct g as [| s [| t g]]; [congruence | reflexivity | cbn [length] in E1; lia]. }
  rewrite (scan_stops_none g pos 0 (-1) H).
  destruct g as [| s g]; [congruence|].
  destruct (0 + Z.of_nat (length (s :: g)) - 1 =? -1) eqn:Eb; [lia|].
  cbn [Z.eqb]. rewrite stop_at_last by congruence. reflexivity.
Qed.

Lemma ColorAt_at_zero (first second : BackendGradientStop) (rest : BackendGradient) :
  Pos first = 0%float -> (0 <? Pos second)%float = true ->
  wf_color (Color first) -> wf_color (Color second) ->
  ColorAt (first :: second :: rest) 0 = Color first.
Proof.
  intros H0 H1 (Hr & Hg & Hb & Ha) (Hr' & Hg' & Hb' & Ha').
  assert (Hf : Forall (fun s => (0 <? Pos s)%float = false) ([] ++ [first])).
  { constructor; [rewrite H0; reflexivity | constructor]. }
  change (first :: second :: rest) with ([] ++ first :: second :: rest).
  rewrite (ColorAt_bracket [] first second rest 0 Hf H1).
  unfold lerp_stops, lerp_float. rewrite H0.
  replace (0 - 0)%float with 0%float by reflexivity.
  rewrite (sub_zero_of_pos _ H1), (zero_div_of_pos _ H1).
  rewrite !lerp_at_zero by assumption.
  destruct (Color first); reflexivity.
Qed.

(** ** Pixel buffers *)

Lemma length_list_set {T : Type} (l : list T) (n : nat) (v : T) :
  length (list_set l n v) = length l.
Proof.
  revert n. induction l as [| x l IH]; intros [| n]; cbn; try reflexivity.
  now rewrite IH.
Qed.

Lemma nth_list_set_eq {T : Type} (l : list T) (n : nat) (v d : T) :
  (n < length l)%nat -> nth n (list_set l n v) d = v.
Proof.
  revert n. induction l as [| x l IH]; intros [| n] Hn; cbn in *; try lia.
  - reflexivity.
  - apply IH. lia.
Qed.

Lemma nth_list_set_neq {T : Type} (l : list T) (n m : nat) (v d : T) :
  n <> m -> nth m (list_set l n v) d = nth m l d.
Proof.
  revert n m. induction l as [| x l IH]; intros [| n] [| m] Hnm; cbn; try reflexivity.
  - congruence.
  - apply IH. congruence.
Qed.

Lemma Point_In_shaped {T : Type} (bw bh : Z) (p : Raster T) (x y : Z) :
  shaped bw bh p ->
  Point_In (mkPoint x y) (Rect p) = true <-> in_bounds bw bh x y.
Proof.
  intros (Hr & _ & _). unfold Point_In, in_bounds. rewrite Hr. cbn.
  rewrite !andb_true_iff, !Z.leb_le, !Z.ltb_lt. lia.
Qed.

Lemma Point_In_shaped_false {T : Type} (bw bh : Z) (p : Raster T) (x y : Z) :
  shaped bw bh p -> ~ in_bounds bw bh x y ->
  Point_In (mkPoint x y) (Rect p) = false.
Proof.
  intros Hs Hn. destruct (Point_In (mkPoint x y) (Rect p)) eqn:E; [|reflexivity].
  apply (Point_In_shaped bw bh p x y Hs) in E. contradiction.
Qed.

Lemma PixOffset_shaped {T : Type} (bw bh : Z) (p : Raster T) (x y : Z) :
  shaped bw bh p -> PixOffset p x y = y * bw + x.
Proof. intros (Hr & Hst & _). unfold PixOffset. rewrite Hr, Hst. cbn. lia. Qed.

Lemma offset_in_range (bw bh x y : Z) :
  in_bounds bw bh x y -> 0 <= y * bw + x < bw * bh.
Proof. unfold in_bounds. intros. nia. Qed.

Lemma offset_injective (bw bh x y x' y' : Z) :
  in_bounds bw bh x y -> in_bounds bw bh x' y' ->
  y * bw + x = y' * bw + x' -> x = x' /\ y = y'.
Proof. unfold in_bounds. intros H H' E. assert (y = y') by nia. subst. lia. Qed.

Lemma shaped_raster_set {T : Type} (bw bh : Z) (p : Raster T) (x y : Z) (v : T) :
  shaped bw bh p -> shaped bw bh (raster_set p x y v).
Proof.
  intros Hs. unfold raster_set. destruct (Point_In _ _); [|exact Hs].
  destruct Hs as (Hr & Hst & Hl). repeat split; cbn; try assumption.
  now rewrite length_list_set.
Qed.

Lemma raster_at_outside {T : Type} (zero : T) (bw bh : Z) (p : Raster T) (x y : Z) :
  shaped bw bh p -> ~ in_bounds bw bh x y -> raster_at zero p x y = zero.
Proof.
  intros Hs Hn. unfold raster_at.
  now rewrite (Point_In_shaped_false bw bh p x y Hs Hn).
Qed.

Lemma raster_set_outside {T : Type} (bw bh : Z) (p : Raster T) (x y : Z) (v : T) :
  shaped bw bh p -> ~ in_bounds bw bh x y -> raster_set p x y v = p.
Proof.
  intros Hs Hn. unfold raster_set.
  now rewrite (Point_In_shaped_false bw bh p x y Hs Hn).
Qed.

Lemma raster_at_set_eq {T : Type} (zero : T) (bw bh : Z) (p : Raster T) (x y : Z) (v : T) :
  shaped bw bh p -> in_bounds bw bh x y ->
  raster_at zero (raster_set p x y v) x y = v.
Proof.
  intros Hs Hb.
  pose proof (proj2 (Point_In_shaped bw bh p x y Hs) Hb) as Hin.
  pose proof (offset_in_range bw bh x y Hb) as Ho.
  unfold raster_at, raster_set. rewrite Hin. cbn [Rect Pix]. rewrite Hin.
  unfold PixOffset at 1. cbn [Rect Stride]. fold (PixOffset p x y).
  rewrite (PixOffset_shaped bw bh p x y Hs).
  apply nth_list_set_eq. destruct Hs as (_ & _ & Hl). lia.
Qed.

Lemma raster_at_set_neq {T : Type} (zero : T) (bw bh : Z) (p : Raster T)
      (x y x' y' : Z) (v : T) :
  shaped bw bh p -> (x, y) <> (x', y') ->
  raster_at zero (raster_set p x y v) x' y' = raster_at zero p x' y'.
Proof.
  intros Hs Hne. unfold raster_set.
  destruct (Point_In (mkPoint x y) (Rect p)) eqn:Hin; [|reflexivity].
  apply (Point_In_shaped bw bh p x y Hs) in Hin.
  unfold raster_at. cbn [Rect Pix].
  destruct (Point_In (mkPoint x' y') (Rect p)) eqn:Hin'; [|reflexivity].
  apply (Point_In_shaped bw bh p x' y' Hs) in Hin'.
  unfold PixOffset at 1. cbn [Rect Stride]. fold (PixOffset p x' y').
  rewrite (PixOffset_shaped bw bh p x y Hs), (PixOffset_shaped bw bh p x' y' Hs).
  apply nth_list_set_neq.
  pose proof (offset_in_range bw bh x y Hin).
  pose proof (offset_in_range bw bh x' y' Hin').
  intros E. apply Hne.
  destruct (offset_injective bw bh x y x' y' Hin Hin') as [-> ->]; [lia | reflexivity].
Qed.

Lemma shaped_fill_pix {T : Type} (bw bh : Z) (p : Raster T) (v : T) :
  shaped bw bh p -> shaped bw bh (fill_pix p v).
Proof.
  intros (Hr & Hst & Hl). repeat split; cbn; try assumption.
  now rewrite length_map.
Qed.

Lemma raster_at_fill_pix {T : Type} (zero : T) (p : Raster T) (x y : Z) :
  raster_at zero (fill_pix p zero) x y = zero.
Proof.
  unfold raster_at, fill_pix. cbn [Rect Pix].
  destruct (Point_In _ _); [|reflexivity].
  set (n := Z.to_nat _). clearbody n. revert n.
  induction (Pix p) as [| a l IH]; intros [| n]; cbn; auto.
Qed.

Lemma shaped_raster_new {T : Type} (zero : T) (bw bh : Z) :
  0 <= bw -> 0 <= bh -> shaped bw bh (raster_new zero (image_Rect 0 0 bw bh)).
Proof.
  intros Hw Hh. unfold raster_new, image_Rect, shaped.
  destruct (Z.ltb_spec bw 0); [lia|]. destruct (Z.ltb_spec bh 0); [lia|].
  cbn. unfold Dx, Dy. cbn. rewrite repeat_length.
  split; [reflexivity|]. split; nia.
Qed.

(** ** Loops and scans: two runs in step *)

Lemma for_loop_rel {A B : Type} (Rel : A -> B -> Prop) (n : nat) (i : Z)
      (f : Z -> A -> A) (g : Z -> B -> B) (a : A) (b : B) :
  (forall k a b, Rel a b -> Rel (f k a) (g k b)) ->
  Rel a b -> Rel (for_loop n i f a) (for_loop n i g b).
Proof.
  intros Hstep. revert i a b. induction n as [| n IH]; intros i a b Hab; cbn.
  - exact Hab.
  - apply IH, Hstep, Hab.
Qed.

Lemma for_upto_rel {A B : Type} (Rel : A -> B -> Prop) (lo hi : Z)
      (f : Z -> A -> A) (g : Z -> B -> B) (a : A) (b : B) :
  (forall k a b, Rel a b -> Rel (f k a) (g k b)) ->
  Rel a b -> Rel (for_upto lo hi f a) (for_upto lo hi g b).
Proof. apply for_loop_rel. Qed.

Section InStep.
Context {A B : Type} (Rel : A -> B -> Prop).

Lemma scanTriangleNoAA_rel (bw bh : Z) (tri : Tri)
        (f : Z -> Z -> A -> A) (g : Z -> Z -> B -> B) (a : A) (b : B) :
    (forall x y a b, Rel a b -> Rel (f x y a) (g x y b)) ->
    Rel a b -> Rel (scanTriangleNoAA bw bh tri f a) (scanTriangleNoAA bw bh tri g b).
  Proof.
    intros Hstep Hab. unfold scanTriangleNoAA.
    destruct (scan_rows _ _ _ _) as [[minY maxY] |]; [|exact Hab].
    apply for_upto_rel; [|exact Hab]. clear a b Hab. intros y a b Hab.
    destruct (triangleLR tri _) as [[l r] out].
    destruct out; [exact Hab|].
    destruct (if (l <? 0)%float then _ else _) as [l' |]; [|exact Hab].
    destruct (if (r <? 0)%float then _ else _) as [r' |]; [|exact Hab].
    destruct (r' <=? l')%float; [exact Hab|].
    apply for_upto_rel; [|exact Hab]. clear a b Hab. intros x a b Hab.
    destruct (_ || _); [exact Hab | apply Hstep, Hab].
  Qed.

  (** Two multi-sample runs in step build the same sample list. *)
Lemma scanTriangleMSAA_rel (bw bh : Z) (tri : Tri) (msaaLevel : Z)
        (f : Z -> Z -> A -> A) (g : Z -> Z -> B -> B)
        (acc : list msaaPixel * A) (acc' : list msaaPixel * B) :
    (forall x y a b, Rel a b -> Rel (f x y a) (g x y b)) ->
    fst acc = fst acc' /\ Rel (snd acc) (snd acc') ->
    fst (scanTriangleMSAA bw bh tri msaaLevel f acc)
    = fst (scanTriangleMSAA bw bh tri msaaLevel g acc') /\
    Rel (snd (scanTriangleMSAA bw bh tri msaaLevel f acc))
        (snd (scanTriangleMSAA bw bh tri msaaLevel g acc')).
  Proof.
    intros Hstep Hacc. unfold scanTriangleMSAA.
    destruct (scan_rows _ _ _ _) as [[minY maxY] |]; [|exact Hacc].
    apply (for_upto_rel (fun p q => fst p = fst q /\ Rel (snd p) (snd q)));
      [|exact Hacc].
    clear acc acc' Hacc. intros y acc acc' Hacc.
    destruct (sub_spans _ _ _) as [spans [[allOut minL] maxR]].
    destruct allOut; [exact Hacc|].
    apply (for_upto_rel (fun p q => fst p = fst q /\ Rel (snd p) (snd q)));
      [|exact Hacc].
    clear acc acc' Hacc. intros x acc acc' Hacc.
    destruct Hacc as [Hf Hs].
    destruct (all_in _ _); split; cbn [fst snd]; auto.
    now rewrite Hf.
  Qed.

Lemma iterate_triples_rel (pts : list BackendVec)
        (F : Tri -> A -> A) (G : Tri -> B -> B) (a : A) (b : B) :
    (forall tri a b, Rel a b -> Rel (F tri a) (G tri b)) ->
    Rel a b -> Rel (iterate_triples pts F a) (iterate_triples pts G b).
  Proof.
    intros Hstep.
    assert (H : forall n pts a b, (length pts <= n)%nat -> Rel a b ->
                Rel (iterate_triples pts F a) (iterate_triples pts G b)).
    { induction n as [| n IH]; intros l a0 b0 Hlen Hab.
      - destruct l; [exact Hab | cbn in Hlen; lia].
      - destruct l as [| p0 [| p1 [| p2 rest]]]; cbn; try exact Hab.
        apply IH; [cbn in Hlen; lia | apply Hstep, Hab]. }
    apply (H (length pts)). lia.
  Qed.

Lemma iterateTriangles_rel (pts : list BackendVec)
        (F : Tri -> A -> A) (G : Tri -> B -> B) (a : A) (b : B) :
    (forall tri a b, Rel a b -> Rel (F tri a) (G tri b)) ->
    Rel a b -> Rel (iterateTriangles pts F a) (iterateTriangles pts G b).
  Proof.
    intros Hstep Hab. unfold iterateTriangles.
    destruct pts as [| p0 [| p1 [| p2 [| p3 [| p4 rest]]]]];
      try (apply iterate_triples_rel; assumption).
    apply Hstep, Hstep, Hab.
  Qed.

End InStep.

(** ** A scan is the run of its callback over the reported pixels *)

Lemma run_pixels_app {St : Type} (fn : Z -> Z -> St -> St) (s : St) (t : list (Z * Z))
      (x y : Z) :
  run_pixels fn s (record_pixel x y t) = fn x y (run_pixels fn s t).
Proof. unfold run_pixels, record_pixel. now rewrite fold_left_app. Qed.

Lemma scanTriangleNoAA_run {St : Type} (bw bh : Z) (tri : Tri)
      (fn : Z -> Z -> St -> St) (s : St) (t : list (Z * Z)) :
  scanTriangleNoAA bw bh tri fn (run_pixels fn s t)
  = run_pixels fn s (scanTriangleNoAA bw bh tri record_pixel t).
Proof.
  apply (scanTriangleNoAA_rel (fun a t => a = run_pixels fn s t)); [|reflexivity].
  intros x y a t' ->. now rewrite run_pixels_app.
Qed.

Lemma scanTriangleMSAA_run {St : Type} (bw bh : Z) (tri : Tri) (msaaLevel : Z)
      (fn : Z -> Z -> St -> St) (s : St) (m : list msaaPixel) (t : list (Z * Z)) :
  scanTriangleMSAA bw bh tri msaaLevel fn (m, run_pixels fn s t)
  = (fst (scanTriangleMSAA bw bh tri msaaLevel record_pixel (m, t)),
     run_pixels fn s (snd (scanTriangleMSAA bw bh tri msaaLevel record_pixel (m, t)))).
Proof.
  pose proof (scanTriangleMSAA_rel (fun a t => a = run_pixels fn s t)
                bw bh tri msaaLevel fn record_pixel (m, run_pixels fn s t) (m, t)) as H.
  destruct H as [H1 H2].
  - intros x y a t' ->. now rewrite run_pixels_app.
  - split; reflexivity.
  - destruct (scanTriangleMSAA bw bh tri msaaLevel fn _) as [m' s'].
    cbn [fst snd] in *. now subst.
Qed.

(** ** One guarded paint step *)

Lemma paintNoAA_guarded (fn : float -> float -> RGBA) (x y : Z) (b : SoftwareBackend) :
  paintNoAA fn x y b = guarded_blend b x y (fn (float64_of_int x) (float64_of_int y)).
Proof. reflexivity. Qed.

Lemma paintFull_guarded (fn : float -> float -> RGBA) (x y : Z) (b : SoftwareBackend) :
  paintFull fn x y b = guarded_blend b x y (fn (float64_of_int x) (float64_of_int y)).
Proof. reflexivity. Qed.

Lemma paintQuad_guarded (fn : float -> float -> float -> float -> RGBA) (x y : Z)
      (u v : float) (b : SoftwareBackend) :
  paintQuad fn x y u v b
  = guarded_blend b x y (fn (float64_of_int x + 0.5)%float (float64_of_int y + 0.5)%float u v).
Proof. reflexivity. Qed.

Lemma AlphaAt_nonzero_in_bounds (bw bh : Z) (m : AlphaImage) (x y : Z) :
  shaped bw bh m -> AlphaAt m x y <> 0 -> in_bounds bw bh x y.
Proof.
  intros Hs Hne.
  destruct (Z_le_dec 0 x), (Z_lt_dec x bw), (Z_le_dec 0 y), (Z_lt_dec y bh);
    try (now unfold in_bounds);
    exfalso; apply Hne; apply (raster_at_outside 0 bw bh m x y Hs);
    unfold in_bounds; lia.
Qed.

Section GuardedBlend.
Variables (bw bh : Z) (b : SoftwareBackend) (x y : Z) (col : RGBA).
Hypothesis Hlay : layout bw bh b.

Lemma guarded_blend_layout : layout bw bh (guarded_blend b x y col).
  Proof.
    destruct Hlay as (Hw & Hh & Hi & Hc & Hs). unfold guarded_blend.
    destruct (_ =? 0); [exact Hlay|]. destruct (0 <? _); [exact Hlay|].
    cbv zeta. destruct (0 <? A col); unfold layout; cbn [w h Image clip stencil blend set_stencil];
      (split; [exact Hw|]); (split; [exact Hh|]);
      (split; [try apply shaped_raster_set; exact Hi|]);
      (split; [exact Hc|]); apply shaped_raster_set; exact Hs.
  Qed.

Lemma guarded_blend_frame :
    clip (guarded_blend b x y col) = clip b /\
    MSAA (guarded_blend b x y col) = MSAA b /\
    blurSwap (guarded_blend b x y col) = blurSwap b.
  Proof.
    unfold guarded_blend.
    destruct (_ =? 0); [auto|]. destruct (0 <? _); [auto|].
    cbv zeta. destruct (0 <? A col); cbn; auto.
  Qed.

Lemma guarded_blend_pixel :
    RGBAAt (Image (guarded_blend b x y col)) x y = painted b x y col.
  Proof.
    destruct Hlay as (Hw & Hh & Hi & Hc & Hs). unfold guarded_blend, painted.
    destruct (Z.eqb_spec (AlphaAt (clip b) x y) 0) as [E | E]; [reflexivity|].
    destruct (0 <? AlphaAt (stencil b) x y); [reflexivity|].
    cbv zeta. destruct (0 <? A col); [|reflexivity].
    cbn. apply (raster_at_set_eq transparent bw bh); [assumption|].
    apply (AlphaAt_nonzero_in_bounds bw bh (clip b)); assumption.
  Qed.

Lemma guarded_blend_other_pixel (x' y' : Z) :
    (x, y) <> (x', y') ->
    RGBAAt (Image (guarded_blend b x y col)) x' y' = RGBAAt (Image b) x' y' /\
    AlphaAt (stencil (guarded_blend b x y col)) x' y' = AlphaAt (stencil b) x' y'.
  Proof.
    intros Hne. destruct Hlay as (Hw & Hh & Hi & Hc & Hs). unfold guarded_blend.
    destruct (_ =? 0); [auto|]. destruct (0 <? _); [auto|].
    cbv zeta. destruct (0 <? A col); cbn; split;
      try reflexivity;
      try (apply (raster_at_set_neq _ bw bh); assumption).
  Qed.

Lemma guarded_blend_marks :
    AlphaAt (clip b) x y = 0 \/ 0 < AlphaAt (stencil (guarded_blend b x y col)) x y.
  Proof.
    destruct Hlay as (Hw & Hh & Hi & Hc & Hs). unfold guarded_blend.
    destruct (Z.eqb_spec (AlphaAt (clip b) x y) 0) as [E | E]; [now left|]. right.
    destruct (Z.ltb_spec 0 (AlphaAt (stencil b) x y)) as [E' | E']; [exact E'|].
    assert (Hb : in_bounds bw bh x y)
      by (apply (AlphaAt_nonzero_in_bounds bw bh (clip b)); assumption).
    assert (Hset : AlphaAt (SetAlpha (stencil b) x y 255) x y = 255)
      by (apply (raster_at_set_eq 0 bw bh); assumption).
    cbv zeta. destruct (0 <? A col); cbn; rewrite Hset; lia.
  Qed.

Lemma guarded_blend_stencil_mono (x' y' : Z) :
    0 < AlphaAt (stencil b) x' y' ->
    0 < AlphaAt (stencil (guarded_blend b x y col)) x' y'.
  Proof.
    intros Hpos. destruct Hlay as (Hw & Hh & Hi & Hc & Hs).
    destruct (Z.eq_dec x x') as [<- | Hx].
    - destruct (Z.eq_dec y y') as [<- | Hy].
      + unfold guarded_blend.
        destruct (_ =? 0); [exact Hpos|].
        destruct (Z.ltb_spec 0 (AlphaAt (stencil b) x y)); [exact Hpos | lia].
      + rewrite (proj2 (guarded_blend_other_pixel x y' ltac:(congruence))). exact Hpos.
    - rewrite (proj2 (guarded_blend_other_pixel x' y' ltac:(congruence))). exact Hpos.
  Qed.

Lemma guarded_blend_log :
    blendLog (guarded_blend b x y col) = blendLog b \/
    (blendLog (guarded_blend b x y col) = (x, y) :: blendLog b /\
     AlphaAt (stencil b) x y <= 0).
  Proof.
    unfold guarded_blend.
    destruct (_ =? 0); [now left|].
    destruct (Z.ltb_spec 0 (AlphaAt (stencil b) x y)); [now left|].
    cbv zeta. destruct (0 <? A col); cbn; [right | left]; auto.
  Qed.

End GuardedBlend.

Lemma painted_settled (b : SoftwareBackend) (x y : Z) (col : RGBA) :
  AlphaAt (clip b) x y = 0 \/ 0 < AlphaAt (stencil b) x y ->
  painted b x y col = RGBAAt (Image b) x y.
Proof.
  intros [H | H]; unfold painted.
  - rewrite H. reflexivity.
  - destruct (_ =? 0); [reflexivity|].
    destruct (Z.ltb_spec 0 (AlphaAt (stencil b) x y)); [reflexivity | lia].
Qed.

Lemma guarded_blend_once (bw bh : Z) (b0 b : SoftwareBackend) (x y : Z) (col : RGBA) :
  layout bw bh b -> blended_once b0 b -> blended_once b0 (guarded_blend b x y col).
Proof.
  intros Hlay (new & Hlog & Hnd & Hmarks).
  destruct (guarded_blend_log b x y col) as [E | [E Hst]].
  - exists new. rewrite E. repeat split; try assumption.
    intros p Hp. apply (guarded_blend_stencil_mono bw bh); auto.
  - exists ((x, y) :: new). rewrite E, Hlog. split; [reflexivity|]. split.
    + constructor; [|exact Hnd]. intros Hin. specialize (Hmarks _ Hin). cbn in Hmarks. lia.
    + intros p [<- | Hp].
      * cbn [fst snd].
        destruct (guarded_blend_marks bw bh b x y col Hlay) as [Hc | Hm]; [|exact Hm].
        exfalso. unfold guarded_blend in E. rewrite Hc in E. cbn in E.
        apply (f_equal (@length _)) in E. cbn in E. lia.
      * apply (guarded_blend_stencil_mono bw bh); auto.
Qed.

(** ** Runs of guarded paint steps over a list of pixels *)

Section GuardedRun.
Variables (bw bh : Z) (colf : Z -> Z -> RGBA).

Let step (x y : Z) (b : SoftwareBackend) : SoftwareBackend :=
    guarded_blend b x y (colf x y).

Lemma run_guarded_layout (t : list (Z * Z)) (b : SoftwareBackend) :
    layout bw bh b ->
    layout bw bh (run_pixels step b t) /\
    clip (run_pixels step b t) = clip b /\
    MSAA (run_pixels step b t) = MSAA b.
  Proof.
    revert b. induction t as [| [x y] t IH]; intros b Hlay; cbn.
    - auto.
    - destruct (IH (step x y b)) as (H1 & H2 & H3).
      + apply guarded_blend_layout, Hlay.
      + fold (run_pixels step (step x y b) t). split; [exact H1|].
        destruct (guarded_blend_frame b x y (colf x y)) as (Hc & Hm & _).
        unfold step in *. cbn [fst snd]. rewrite H2, H3. auto.
  Qed.

Lemma run_guarded_once (t : list (Z * Z)) (b0 b : SoftwareBackend) :
    layout bw bh b -> blended_once b0 b -> blended_once b0 (run_pixels step b t).
  Proof.
    revert b. induction t as [| [x y] t IH]; intros b Hlay Hon; cbn.
    - exact Hon.
    - apply IH.
      + apply guarded_blend_layout, Hlay.
      + apply (guarded_blend_once bw bh); assumption.
  Qed.

Lemma run_guarded_absent (t : list (Z * Z)) (b : SoftwareBackend) (x y : Z) :
    layout bw bh b -> ~ In (x, y) t ->
    RGBAAt (Image (run_pixels step b t)) x y = RGBAAt (Image b) x y /\
    AlphaAt (stencil (run_pixels step b t)) x y = AlphaAt (stencil b) x y.
  Proof.
    revert b. induction t as [| [x' y'] t IH]; intros b Hlay Hnin; cbn.
    - auto.
    - assert (Hne : (x', y') <> (x, y)) by (intros E; apply Hnin; now left).
      destruct (IH (step x' y' b)) as (H1 & H2).
      + apply guarded_blend_layout, Hlay.
      + intros Hin. apply Hnin. now right.
      + destruct (guarded_blend_other_pixel bw bh b x' y' (colf x' y') Hlay x y Hne)
          as (G1 & G2).
        cbn [fst snd]. unfold run_pixels in H1, H2. unfold step in *.
        rewrite H1, H2. auto.
  Qed.

Lemma run_guarded_settled (t : list (Z * Z)) (b : SoftwareBackend) (x y : Z) :
    layout bw bh b ->
    AlphaAt (clip b) x y = 0 \/ 0 < AlphaAt (stencil b) x y ->
    RGBAAt (Image (run_pixels step b t)) x y = RGBAAt (Image b) x y /\
    (AlphaAt (clip b) x y = 0 \/ 0 < AlphaAt (stencil (run_pixels step b t)) x y).
  Proof.
    revert b. induction t as [| [x' y'] t IH]; intros b Hlay Hset; cbn.
    - auto.
    - destruct (guarded_blend_frame b x' y' (colf x' y')) as (Hc & _ & _).
      assert (Hset' : AlphaAt (clip (step x' y' b)) x y = 0 \/
                      0 < AlphaAt (stencil (step x' y' b)) x y).
      { unfold step. rewrite Hc. destruct Hset as [H | H]; [now left | right].
        apply (guarded_blend_stencil_mono bw bh); assumption. }
      destruct (IH (step x' y' b) (guarded_blend_layout bw bh b x' y' _ Hlay) Hset')
        as (H1 & H2).
      cbn [fst snd]. unfold run_pixels in H1, H2. rewrite H1.
      unfold step in H2 at 1. rewrite Hc in H2. split; [|exact H2].
      destruct (Z.eq_dec x' x) as [-> | Hx]; [destruct (Z.eq_dec y' y) as [-> | Hy]|].
      + unfold step. rewrite (guarded_blend_pixel bw bh b x y _ Hlay).
        apply painted_settled, Hset.
      + apply (guarded_blend_other_pixel bw bh b x y' _ Hlay). congruence.
      + apply (guarded_blend_other_pixel bw bh b x' y' _ Hlay). congruence.
  Qed.

Lemma run_guarded_present (t : list (Z * Z)) (b : SoftwareBackend) (x y : Z) :
    layout bw bh b -> In (x, y) t ->
    RGBAAt (Image (run_pixels step b t)) x y = painted b x y (colf x y) /\
    (AlphaAt (clip b) x y = 0 \/ 0 < AlphaAt (stencil (run_pixels step b t)) x y).
  Proof.
    revert b. induction t as [| [x' y'] t IH]; intros b Hlay Hin; [contradiction|].
    cbn [run_pixels fold_left fst snd]. fold (run_pixels step (step x' y' b) t).
    pose proof (guarded_blend_layout bw bh b x' y' (colf x' y') Hlay) as Hlay'.
    destruct (guarded_blend_frame b x' y' (colf x' y')) as (Hc & _ & _).
    fold (step x' y' b) in Hlay', Hc.
    destruct (Z.eq_dec x' x) as [Ex | Hx]; [destruct (Z.eq_dec y' y) as [Ey | Hy]|].
    - subst x' y'.
      assert (Hset : AlphaAt (clip (step x y b)) x y = 0 \/
                     0 < AlphaAt (stencil (step x y b)) x y).
      { rewrite Hc. apply (guarded_blend_marks bw bh), Hlay. }
      destruct (run_guarded_settled t (step x y b) x y Hlay' Hset) as (H1 & H2).
      rewrite H1, Hc in *. split; [|exact H2].
      apply (guarded_blend_pixel bw bh), Hlay.
    - assert (Hne : (x', y') <> (x, y)) by congruence.
      destruct Hin as [E | Hin]; [congruence|].
      destruct (IH (step x' y' b) Hlay' Hin) as (H1 & H2).
      destruct (guarded_blend_other_pixel bw bh b x' y' (colf x' y') Hlay x y Hne)
        as (G1 & G2).
      change (guarded_blend b x' y' (colf x' y')) with (step x' y' b) in G1, G2.
      rewrite H1. rewrite Hc in H2. split; [|exact H2].
      unfold painted. rewrite Hc, G1, G2. reflexivity.
    - assert (Hne : (x', y') <> (x, y)) by congruence.
      destruct Hin as [E | Hin]; [congruence|].
      destruct (IH (step x' y' b) Hlay' Hin) as (H1 & H2).
      destruct (guarded_blend_other_pixel bw bh b x' y' (colf x' y') Hlay x y Hne)
        as (G1 & G2).
      change (guarded_blend b x' y' (colf x' y')) with (step x' y' b) in G1, G2.
      rewrite H1. rewrite Hc in H2. split; [|exact H2].
      unfold painted. rewrite Hc, G1, G2. reflexivity.
  Qed.

End GuardedRun.

(** ** The averaging step *)

Section MarkedBlend.
Variables (bw bh : Z) (b : SoftwareBackend) (x y : Z) (col : RGBA).
Hypothesis Hlay : layout bw bh b.

Lemma marked_blend_layout : layout bw bh (marked_blend b x y col).
  Proof.
    destruct Hlay as (Hw & Hh & Hi & Hc & Hs).
    unfold layout, marked_blend. cbn [w h Image clip stencil blend set_stencil].
    (split; [exact Hw|]); (split; [exact Hh|]);
    (split; [apply shaped_raster_set; exact Hi|]);
    (split; [exact Hc|]); apply shaped_raster_set; exact Hs.
  Qed.

Lemma marked_blend_frame :
    clip (marked_blend b x y col) = clip b /\
    MSAA (marked_blend b x y col) = MSAA b /\
    blendLog (marked_blend b x y col) = (x, y) :: blendLog b.
  Proof. unfold marked_blend. cbn. auto. Qed.

Lemma marked_blend_pixel :
    in_bounds bw bh x y ->
    RGBAAt (Image (marked_blend b x y col)) x y = mix col (RGBAAt (Image b) x y) /\
    AlphaAt (stencil (marked_blend b x y col)) x y = 255.
  Proof.
    intros Hb. destruct Hlay as (Hw & Hh & Hi & Hc & Hs). unfold marked_blend. cbn.
    split.
    - apply (raster_at_set_eq transparent bw bh); assumption.
    - apply (raster_at_set_eq 0 bw bh); assumption.
  Qed.

Lemma marked_blend_other_pixel (x' y' : Z) :
    (x, y) <> (x', y') ->
    RGBAAt (Image (marked_blend b x y col)) x' y' = RGBAAt (Image b) x' y' /\
    AlphaAt (stencil (marked_blend b x y col)) x' y' = AlphaAt (stencil b) x' y'.
  Proof.
    intros Hne. destruct Hlay as (Hw & Hh & Hi & Hc & Hs). unfold marked_blend. cbn.
    split; apply (raster_at_set_neq _ bw bh); assumption.
  Qed.

Lemma marked_blend_stencil_mono (x' y' : Z) :
    in_bounds bw bh x y ->
    0 < AlphaAt (stencil b) x' y' ->
    0 < AlphaAt (stencil (marked_blend b x y col)) x' y'.
  Proof.
    intros Hb Hpos.
    destruct (Z.eq_dec x x') as [<- | Hx]; [destruct (Z.eq_dec y y') as [<- | Hy]|].
    - rewrite (proj2 (marked_blend_pixel Hb)). lia.
    - rewrite (proj2 (marked_blend_other_pixel x y' ltac:(congruence))). exact Hpos.
    - rewrite (proj2 (marked_blend_other_pixel x' y' ltac:(congruence))). exact Hpos.
  Qed.

End MarkedBlend.

Lemma marked_blend_once (bw bh : Z) (b0 b : SoftwareBackend) (x y : Z) (col : RGBA) :
  layout bw bh b -> in_bounds bw bh x y -> AlphaAt (stencil b) x y <= 0 ->
  blended_once b0 b -> blended_once b0 (marked_blend b x y col).
Proof.
  intros Hlay Hb Hst (new & Hlog & Hnd & Hmarks).
  exists ((x, y) :: new).
  destruct (marked_blend_frame b x y col) as (_ & _ & ->). rewrite Hlog.
  split; [reflexivity|]. split.
  - constructor; [|exact Hnd]. intros Hin. specialize (Hmarks _ Hin). cbn in Hmarks. lia.
  - intros p [<- | Hp].
    + cbn [fst snd]. rewrite (proj2 (marked_blend_pixel bw bh b x y col Hlay Hb)). lia.
    + apply (marked_blend_stencil_mono bw bh); auto.
Qed.

(** *** The inner loop: sums and marks *)

Lemma sum_samples_spec (fn : float -> float -> RGBA) (x y : Z) (pxs : list msaaPixel)
      (mr mg mb ma : Z) :
  sum_samples fn x y pxs (mr, mg, mb, ma) =
  ((mr + channel_sum R (sample_colors fn (pixel_samples x y pxs)),
    mg + channel_sum G (sample_colors fn (pixel_samples x y pxs)),
    mb + channel_sum B (sample_colors fn (pixel_samples x y pxs)),
    ma + channel_sum A (sample_colors fn (pixel_samples x y pxs))),
   mark_used x y pxs).
Proof.
  revert mr mg mb ma. induction pxs as [| px rest IH]; intros mr mg mb ma.
  - cbn. rewrite !Z.add_0_r. reflexivity.
  - cbn [sum_samples pixel_samples filter mark_used map].
    fold (pixel_samples x y rest). fold (mark_used x y rest).
    destruct (ix px =? x) eqn:Ex; destruct (iy px =? y) eqn:Ey; cbn [negb orb andb];
      rewrite IH; cbn [sample_colors map channel_sum fold_right];
      fold (sample_colors fn (pixel_samples x y rest));
      unfold channel_sum; rewrite ?Z.add_assoc; reflexivity.
Qed.

Lemma length_mark_used (x y : Z) (pxs : list msaaPixel) :
  length (mark_used x y pxs) = length pxs.
Proof. apply length_map. Qed.

Lemma pixel_samples_mark_other (x y x' y' : Z) (pxs : list msaaPixel) :
  0 <= x -> (x', y') <> (x, y) ->
  pixel_samples x y (mark_used x' y' pxs) = pixel_samples x y pxs.
Proof.
  intros Hx Hne. induction pxs as [| px rest IH]; [reflexivity|].
  cbn [mark_used map pixel_samples filter].
  fold (mark_used x' y' rest). fold (pixel_samples x y (mark_used x' y' rest)).
  fold (pixel_samples x y rest). rewrite IH.
  destruct (Z.eqb_spec (ix px) x') as [E1 | E1];
    destruct (Z.eqb_spec (iy px) y') as [E2 | E2]; cbn [andb]; try reflexivity.
  cbn [ix iy].
  destruct (Z.eqb_spec (-1) x) as [E3 | E3]; [lia|].
  destruct (Z.eqb_spec (ix px) x) as [E4 | E4]; [|reflexivity].
  destruct (Z.eqb_spec (iy px) y) as [E5 | E5]; [|reflexivity].
  exfalso. apply Hne. congruence.
Qed.

Lemma pixel_samples_mark_same (x y : Z) (pxs : list msaaPixel) :
  0 <= x -> pixel_samples x y (mark_used x y pxs) = [].
Proof.
  intros Hx. induction pxs as [| px rest IH]; [reflexivity|].
  cbn [mark_used map pixel_samples filter].
  fold (mark_used x y rest). fold (pixel_samples x y (mark_used x y rest)). rewrite IH.
  destruct ((ix px =? x) && (iy px =? y)) eqn:E.
  - cbn [ix iy]. destruct (Z.eqb_spec (-1) x); [lia | reflexivity].
  - rewrite E. reflexivity.
Qed.

(** *** The averaging pass *)

Lemma average_samples_step (samples : Z) (fn : float -> float -> RGBA) (n : nat)
      (px : msaaPixel) (rest : list msaaPixel) (b : SoftwareBackend) :
  average_samples samples fn (S n) (px :: rest) b =
  if (ix px <? 0) || (AlphaAt (clip b) (ix px) (iy px) =? 0)
     || (0 <? AlphaAt (stencil b) (ix px) (iy px))
  then average_samples samples fn n rest b
  else average_samples samples fn n (mark_used (ix px) (iy px) rest)
         (marked_blend b (ix px) (iy px)
            (coverage_weighted samples
               (sample_colors fn (pixel_samples (ix px) (iy px) (px :: rest))))).
Proof.
  cbn [average_samples]. destruct (_ || _); [reflexivity|].
  rewrite sum_samples_spec. rewrite !Z.add_0_l.
  unfold mark_used at 1. cbn [map tl]. reflexivity.
Qed.

Section AveragingPass.
Variables (bw bh samples : Z) (fn : float -> float -> RGBA).

Lemma guard_passed (b : SoftwareBackend) (px : msaaPixel) :
    layout bw bh b ->
    (ix px <? 0) || (AlphaAt (clip b) (ix px) (iy px) =? 0)
      || (0 <? AlphaAt (stencil b) (ix px) (iy px)) = false ->
    in_bounds bw bh (ix px) (iy px) /\
    AlphaAt (clip b) (ix px) (iy px) <> 0 /\
    AlphaAt (stencil b) (ix px) (iy px) <= 0.
  Proof.
    intros (Hw & Hh & Hi & Hc & Hs) Hg.
    apply orb_false_iff in Hg. destruct Hg as [Hg H3].
    apply orb_false_iff in Hg. destruct Hg as [H1 H2].
    apply Z.eqb_neq in H2. apply Z.ltb_ge in H3.
    split; [|split]; [|assumption|assumption].
    apply (AlphaAt_nonzero_in_bounds bw bh (clip b)); assumption.
  Qed.

Lemma average_samples_layout (n : nat) (pxs : list msaaPixel) (b : SoftwareBackend) :
    layout bw bh b ->
    layout bw bh (average_samples samples fn n pxs b) /\
    clip (average_samples samples fn n pxs b) = clip b /\
    MSAA (average_samples samples fn n pxs b) = MSAA b.
  Proof.
    revert pxs b. induction n as [| n IH]; intros pxs b Hlay; [cbn; auto|].
    destruct pxs as [| px rest]; [cbn; auto|].
    rewrite average_samples_step. destruct (_ || _); [apply IH, Hlay|].
    destruct (IH (mark_used (ix px) (iy px) rest)
                 (marked_blend b (ix px) (iy px)
                    (coverage_weighted samples
                       (sample_colors fn (pixel_samples (ix px) (iy px) (px :: rest)))))
                 (marked_blend_layout bw bh b _ _ _ Hlay)) as (H1 & H2 & H3).
    split; [exact H1|]. rewrite H2, H3. split; reflexivity.
  Qed.

Lemma average_samples_once (n : nat) (pxs : list msaaPixel) (b0 b : SoftwareBackend) :
    layout bw bh b -> blended_once b0 b ->
    blended_once b0 (average_samples samples fn n pxs b).
  Proof.
    revert pxs b. induction n as [| n IH]; intros pxs b Hlay Hon; [exact Hon|].
    destruct pxs as [| px rest]; [exact Hon|].
    rewrite average_samples_step. destruct (_ || _) eqn:Hg; [apply IH; assumption|].
    destruct (guard_passed b px Hlay Hg) as (Hb & Hc & Hs).
    apply IH.
    - apply marked_blend_layout, Hlay.
    - apply (marked_blend_once bw bh); assumption.
  Qed.

Lemma average_samples_settled (n : nat) (pxs : list msaaPixel) (b : SoftwareBackend)
        (x y : Z) :
    layout bw bh b ->
    AlphaAt (clip b) x y = 0 \/ 0 < AlphaAt (stencil b) x y ->
    RGBAAt (Image (average_samples samples fn n pxs b)) x y = RGBAAt (Image b) x y.
  Proof.
    revert pxs b. induction n as [| n IH]; intros pxs b Hlay Hset; [reflexivity|].
    destruct pxs as [| px rest]; [reflexivity|].
    rewrite average_samples_step. destruct (_ || _) eqn:Hg; [apply IH; assumption|].
    destruct (guard_passed b px Hlay Hg) as (Hb & Hc & Hs).
    assert (Hne : (ix px, iy px) <> (x, y)).
    { intros E. injection E as <- <-. destruct Hset; [contradiction | lia]. }
    set (col := coverage_weighted _ _).
    destruct (marked_blend_other_pixel bw bh b (ix px) (iy px) col Hlay x y Hne) as (G1 & G2).
    rewrite IH.
    - exact G1.
    - apply marked_blend_layout, Hlay.
    - destruct Hset as [H | H]; [left; exact H | right].
      apply (marked_blend_stencil_mono bw bh); assumption.
  Qed.

  (** The pixel the averaging pass writes for the samples of [(x, y)]. *)
Lemma average_samples_pixel (n : nat) (pxs : list msaaPixel) (b : SoftwareBackend)
        (x y : Z) :
    n = length pxs -> layout bw bh b -> 0 <= x ->
    AlphaAt (clip b) x y <> 0 -> AlphaAt (stencil b) x y <= 0 ->
    pixel_samples x y pxs <> [] ->
    RGBAAt (Image (average_samples samples fn n pxs b)) x y
    = mix (coverage_weighted samples (sample_colors fn (pixel_samples x y pxs)))
          (RGBAAt (Image b) x y).
  Proof.
    revert pxs b. induction n as [| n IH]; intros pxs b Hn Hlay Hx Hc Hs Hne.
    { destruct pxs; [contradiction | discriminate]. }
    destruct pxs as [| px rest]; [discriminate|].
    injection Hn as Hn. rewrite average_samples_step.
    destruct ((ix px =? x) && (iy px =? y)) eqn:Hhere.
    - (* the first sample of the pixel: it is averaged now *)
      apply andb_true_iff in Hhere. destruct Hhere as [E1 E2].
      apply Z.eqb_eq in E1, E2. rewrite E1, E2.
      assert (Hb : in_bounds bw bh x y)
        by (destruct Hlay as (_ & _ & _ & Hcl & _);
            apply (AlphaAt_nonzero_in_bounds bw bh (clip b)); assumption).
      destruct (Z.ltb_spec x 0) as [? | _]; [lia|].
      destruct (Z.eqb_spec (AlphaAt (clip b) x y) 0) as [? | _]; [contradiction|].
      destruct (Z.ltb_spec 0 (AlphaAt (stencil b) x y)) as [? | _]; [lia|].
      cbn [orb]. set (col := coverage_weighted _ _).
      destruct (marked_blend_pixel bw bh b x y col Hlay Hb) as (G1 & G2).
      rewrite average_samples_settled.
      + exact G1.
      + apply marked_blend_layout, Hlay.
      + right. rewrite G2. lia.
    - (* a sample of another pixel *)
      assert (Hne' : (ix px, iy px) <> (x, y)).
      { intros E. injection E as E1 E2. rewrite E1, E2, !Z.eqb_refl in Hhere. discriminate. }
      assert (Hsame : pixel_samples x y (px :: rest) = pixel_samples x y rest).
      { cbn [pixel_samples filter]. rewrite Hhere. reflexivity. }
      rewrite Hsame in *.
      destruct (_ || _) eqn:Hg.
      + apply IH; assumption.
      + destruct (guard_passed b px Hlay Hg) as (Hb' & Hc' & Hs').
        set (col := coverage_weighted _ _).
        destruct (marked_blend_other_pixel bw bh b (ix px) (iy px) col Hlay x y Hne')
          as (G1 & G2).
        destruct (marked_blend_frame b (ix px) (iy px) col) as (F1 & _ & _).
        rewrite IH.
        * rewrite pixel_samples_mark_other, G1 by assumption. reflexivity.
        * rewrite length_mark_used. exact Hn.
        * apply marked_blend_layout, Hlay.
        * exact Hx.
        * rewrite F1. exact Hc.
        * rewrite G2. exact Hs.
        * rewrite pixel_samples_mark_other by assumption. exact Hne.
  Qed.

End AveragingPass.

(** ** Whole fills as runs over the reported pixels *)

Lemma layout_of_wf (b : SoftwareBackend) : wf_backend b -> layout (w b) (h b) b.
Proof. intros (_ & _ & _ & Hi & Hc & Hs). unfold layout. auto. Qed.

Lemma clearStencil_layout (bw bh : Z) (b : SoftwareBackend) :
  layout bw bh b -> layout bw bh (clearStencil b).
Proof.
  intros (Hw & Hh & Hi & Hc & Hs). unfold layout, clearStencil.
  cbn [w h Image clip stencil set_stencil].
  (split; [exact Hw|]); (split; [exact Hh|]); (split; [exact Hi|]);
  (split; [exact Hc|]); apply shaped_fill_pix, Hs.
Qed.

Lemma clearStencil_zero (b : SoftwareBackend) (x y : Z) :
  AlphaAt (stencil (clearStencil b)) x y = 0.
Proof. apply (raster_at_fill_pix 0). Qed.

Lemma blended_once_refl (b : SoftwareBackend) : blended_once b b.
Proof. exists []. repeat split; [constructor | intros p []]. Qed.

Lemma fillTrianglesNoAA_run (bw bh : Z) (b : SoftwareBackend) (pts : list BackendVec)
      (fn : float -> float -> RGBA) :
  layout bw bh b ->
  fillTrianglesNoAA b pts fn = run_pixels (paintNoAA fn) b (coverageNoAA bw bh pts).
Proof.
  intros Hlay. unfold fillTrianglesNoAA, coverageNoAA.
  apply (iterateTriangles_rel (fun a t => a = run_pixels (paintNoAA fn) b t));
    [|reflexivity].
  intros tri a t ->. unfold fillTriangleNoAA.
  destruct (run_guarded_layout bw bh
              (fun x y => fn (float64_of_int x) (float64_of_int y)) t b Hlay)
    as ((Hw & Hh & _) & _).
  change (run_pixels (fun x y b => guarded_blend b x y (fn (float64_of_int x) (float64_of_int y))) b t)
    with (run_pixels (paintNoAA fn) b t) in Hw, Hh.
  rewrite Hw, Hh. apply scanTriangleNoAA_run.
Qed.

Lemma fillTrianglesMSAA_run (bw bh : Z) (b : SoftwareBackend) (pts : list BackendVec)
      (msaaLevel : Z) (fn : float -> float -> RGBA) :
  layout bw bh b ->
  fillTrianglesMSAA b pts msaaLevel fn =
  average_samples ((msaaLevel + 1) * (msaaLevel + 1)) fn
    (length (samplesMSAA bw bh msaaLevel pts)) (samplesMSAA bw bh msaaLevel pts)
    (run_pixels (paintFull fn) b (fullPixelsMSAA bw bh msaaLevel pts)).
Proof.
  intros Hlay. unfold fillTrianglesMSAA, samplesMSAA, fullPixelsMSAA, scanMSAA.
  match goal with
  | |- (let '(_, _) := iterateTriangles pts ?F ?a in _) = _ =>
      assert (H : fst (iterateTriangles pts F a)
                  = fst (iterateTriangles pts
                           (fun tri acc => scanTriangleMSAA bw bh tri msaaLevel record_pixel acc)
                           ([], []))
                  /\ snd (iterateTriangles pts F a)
                     = run_pixels (paintFull fn) b
                         (snd (iterateTriangles pts
                           (fun tri acc => scanTriangleMSAA bw bh tri msaaLevel record_pixel acc)
                           ([], []))))
  end.
  { apply (iterateTriangles_rel
             (fun (p : list msaaPixel * SoftwareBackend) (q : list msaaPixel * list (Z * Z)) =>
                fst p = fst q /\ snd p = run_pixels (paintFull fn) b (snd q)));
      [|split; reflexivity].
    intros tri [m a] [m' t] [Hm Ha]. cbn [fst snd] in *. subst m' a.
    unfold fillTriangleMSAA.
    destruct (run_guarded_layout bw bh
                (fun x y => fn (float64_of_int x) (float64_of_int y)) t b Hlay)
      as ((Hw & Hh & _) & _).
    change (run_pixels (fun x y b => guarded_blend b x y (fn (float64_of_int x) (float64_of_int y))) b t)
      with (run_pixels (paintFull fn) b t) in Hw, Hh.
    rewrite Hw, Hh, scanTriangleMSAA_run. split; reflexivity. }
  destruct (iterateTriangles pts _ ([], b)) as [m a]. cbn [fst snd] in H.
  destruct H as [-> ->]. reflexivity.
Qed.

(** ** Invariants of the quad scans *)

Lemma for_upto_inv {A : Type} (P : A -> Prop) (lo hi : Z) (f : Z -> A -> A) (a : A) :
  (forall k a, P a -> P (f k a)) -> P a -> P (for_upto lo hi f a).
Proof.
  intros Hstep Ha.
  apply (for_upto_rel (fun a (_ : unit) => P a) lo hi f (fun _ u => u) a tt); auto.
Qed.

Lemma scanQuadNoAA_inv {A : Type} (P : A -> Prop) (bw bh : Z) (quad : Quad)
      (f : Z -> Z -> float -> float -> A -> A) (a : A) :
  (forall x y u v a, P a -> P (f x y u v a)) ->
  P a -> P (scanQuadNoAA bw bh quad f a).
Proof.
  intros Hstep Ha. unfold scanQuadNoAA.
  destruct (quad_rows _ _) as [[minY maxY] |]; [|exact Ha].
  destruct (quad_basis quad) as [[[leftv leftLen] topv] topLen].
  apply for_upto_inv; [|exact Ha]. clear a Ha. intros y a Ha.
  destruct (triangleLR _ _) as [[lf1 rf1] out1].
  destruct (triangleLR _ _) as [[lf2 rf2] out2].
  destruct (out1 && out2); [exact Ha|].
  destruct (if (_ <? 0)%float then _ else _) as [l' |]; [|exact Ha].
  destruct (if (_ <? 0)%float then _ else _) as [r' |]; [|exact Ha].
  destruct (r' <=? l')%float; [exact Ha|].
  apply for_upto_inv; [|exact Ha]. clear a Ha. intros x a Ha.
  destruct (_ || _); [exact Ha|].
  destruct (quad_param _ _ _ _) as [u v]. apply Hstep, Ha.
Qed.

Lemma scanQuadMSAA_inv {A : Type} (P : A -> Prop) (bw bh : Z) (quad : Quad) (msaaLevel : Z)
      (f : Z -> Z -> float -> float -> A -> A) (acc : list msaaPixel * A) :
  (forall x y u v a, P a -> P (f x y u v a)) ->
  P (snd acc) -> P (snd (scanQuadMSAA bw bh quad msaaLevel f acc)).
Proof.
  intros Hstep Ha. unfold scanQuadMSAA.
  destruct (quad_rows _ _) as [[minY maxY] |]; [|exact Ha].
  destruct (quad_basis quad) as [[[leftv leftLen] topv] topLen].
  apply (for_upto_inv (fun p : list msaaPixel * A => P (snd p))); [|exact Ha].
  clear acc Ha. intros y acc Ha.
  destruct (quad_sub_spans _ _ _ _) as [spans [[allOut minL] maxR]].
  destruct allOut; [exact Ha|].
  apply (for_upto_inv (fun p : list msaaPixel * A => P (snd p))); [|exact Ha].
  clear acc Ha. intros x acc Ha.
  destruct (all_in _ _); [|exact Ha].
  destruct (quad_param _ _ _ _) as [u v]. cbn [snd]. apply Hstep, Ha.
Qed.

(** The averaging pass of [fillQuad] keeps the invariant as well. *)
Lemma quad_sum_samples_marks (fn : float -> float -> float -> float -> RGBA) (x y : Z)
      (pxs : list msaaPixel) (sums : Z * Z * Z * Z) :
  snd (quad_sum_samples fn x y pxs sums) = mark_used x y pxs.
Proof.
  revert sums. induction pxs as [| px rest IH]; intros sums; [reflexivity|].
  cbn [quad_sum_samples mark_used map]. fold (mark_used x y rest).
  destruct (ix px =? x); destruct (iy px =? y); cbn [negb orb andb].
  - destruct sums as [[[mr mg] mb] ma].
    specialize (IH (mr + R (fn (fx px) (fy px) (tx px) (ty px)),
                    mg + G (fn (fx px) (fy px) (tx px) (ty px)),
                    mb + B (fn (fx px) (fy px) (tx px) (ty px)),
                    ma + A (fn (fx px) (fy px) (tx px) (ty px)))).
    destruct (quad_sum_samples fn x y rest _) as [s r]. cbn [snd] in *. now subst.
  - specialize (IH sums). destruct (quad_sum_samples fn x y rest sums) as [s r].
    cbn [snd] in *. now subst.
  - specialize (IH sums). destruct (quad_sum_samples fn x y rest sums) as [s r].
    cbn [snd] in *. now subst.
  - specialize (IH sums). destruct (quad_sum_samples fn x y rest sums) as [s r].
    cbn [snd] in *. now subst.
Qed.

Lemma quad_average_samples_once (bw bh samples : Z)
      (fn : float -> float -> float -> float -> RGBA)
      (n : nat) (pxs : list msaaPixel) (b0 b : SoftwareBackend) :
  layout bw bh b -> blended_once b0 b ->
  blended_once b0 (quad_average_samples samples fn n pxs b).
Proof.
  revert pxs b. induction n as [| n IH]; intros pxs b Hlay Hon; [exact Hon|].
  destruct pxs as [| px rest]; [exact Hon|].
  cbn [quad_average_samples]. destruct (_ || _) eqn:Hg; [apply IH; assumption|].
  destruct (guard_passed bw bh b px Hlay Hg) as (Hb & Hc & Hs).
  destruct (quad_sum_samples fn (ix px) (iy px) (px :: rest) (0, 0, 0, 0))
    as [[[[mr mg] mb] ma] marked].
  apply IH.
  - apply (marked_blend_layout bw bh b), Hlay.
  - apply (marked_blend_once bw bh); assumption.
Qed.

(** ** No pixel is blended twice in one operation *)

Lemma run_pixels_inv {St : Type} (P : St -> Prop) (fn : Z -> Z -> St -> St)
      (s : St) (t : list (Z * Z)) :
  (forall x y s, P s -> P (fn x y s)) -> P s -> P (run_pixels fn s t).
Proof.
  intros Hstep. revert s. induction t as [| [x y] t IH]; intros s Hs; cbn.
  - exact Hs.
  - apply IH, Hstep, Hs.
Qed.

Lemma fillTriangles_log (bw bh : Z) (b : SoftwareBackend) (pts : list BackendVec)
      (fn : float -> float -> RGBA) :
  layout bw bh b ->
  exists new, blendLog (fillTriangles b pts fn) = new ++ blendLog b /\ NoDup new.
Proof.
  intros Hlay. pose proof (clearStencil_layout bw bh b Hlay) as Hlay1.
  assert (Hon : blended_once (clearStencil b) (fillTriangles b pts fn)).
  { unfold fillTriangles. cbv zeta. destruct (0 <? MSAA (clearStencil b)).
    - rewrite (fillTrianglesMSAA_run bw bh) by assumption.
      apply (average_samples_once bw bh).
      + apply (run_guarded_layout bw bh
                 (fun x y => fn (float64_of_int x) (float64_of_int y))), Hlay1.
      + apply (run_guarded_once bw bh
                 (fun x y => fn (float64_of_int x) (float64_of_int y)));
          [exact Hlay1 | apply blended_once_refl].
    - rewrite (fillTrianglesNoAA_run bw bh) by assumption.
      apply (run_guarded_once bw bh
               (fun x y => fn (float64_of_int x) (float64_of_int y)));
        [exact Hlay1 | apply blended_once_refl]. }
  destruct Hon as (new & Hlog & Hnd & _). exists new. split; assumption.
Qed.

Lemma fillQuad_log (bw bh : Z) (b : SoftwareBackend) (pts : Quad)
      (fn : float -> float -> float -> float -> RGBA) :
  layout bw bh b ->
  exists new, blendLog (fillQuad b pts fn) = new ++ blendLog b /\ NoDup new.
Proof.
  intros Hlay. pose proof (clearStencil_layout bw bh b Hlay) as Hlay1.
  set (P := fun a => layout bw bh a /\ blended_once (clearStencil b) a).
  assert (Hstep : forall x y u v a, P a -> P (paintQuad fn x y u v a)).
  { intros x y u v a [Ha1 Ha2]. rewrite paintQuad_guarded. split.
    - apply guarded_blend_layout, Ha1.
    - apply (guarded_blend_once bw bh); assumption. }
  assert (HP : P (clearStencil b)) by (split; [exact Hlay1 | apply blended_once_refl]).
  assert (Hon : blended_once (clearStencil b) (fillQuad b pts fn)).
  { unfold fillQuad. cbv zeta. destruct (0 <? MSAA (clearStencil b)).
    - pose proof (scanQuadMSAA_inv P (w (clearStencil b)) (h (clearStencil b)) pts
                    (MSAA (clearStencil b)) (paintQuad fn) ([], clearStencil b) Hstep HP)
        as [H1 H2].
      destruct (scanQuadMSAA _ _ _ _ _ _) as [m a]. cbn [snd] in H1, H2.
      apply (quad_average_samples_once bw bh); assumption.
    - apply (scanQuadNoAA_inv P); assumption. }
  destruct Hon as (new & Hlog & Hnd & _). exists new. split; assumption.
Qed.

Lemma activateBlurTarget_layout (bw bh : Z) (b : SoftwareBackend) :
  layout bw bh b -> layout bw bh (activateBlurTarget b).
Proof.
  intros (Hw & Hh & Hi & Hc & Hs). unfold layout, activateBlurTarget.
  cbn [w h Image clip stencil set_Image set_blurSwap].
  (split; [exact Hw|]); (split; [exact Hh|]); (split; [|split; assumption]).
  destruct Hi as (Hr & Hst & Hl). unfold NewRGBA, raster_new, shaped. rewrite Hr.
  unfold Dx, Dy. cbn. rewrite repeat_length, !Z.sub_0_r.
  split; [reflexivity|]. split; [reflexivity|]. lia.
Qed.

Lemma Fill_log (b : SoftwareBackend) (style : BackendFillStyle) (pts : list BackendVec)
      (tf : BackendMat) (canOverlap : bool) :
  wf_backend b ->
  exists new, blendLog (Fill b style pts tf canOverlap) = new ++ blendLog b /\ NoDup new.
Proof.
  intros Hwf. pose proof (layout_of_wf b Hwf) as Hlay. unfold Fill. cbv zeta.
  destruct (0 <? style_Blur style)%float.
  - destruct (fillTriangles_log (w b) (h b) (activateBlurTarget b)
                (if BackendMat_neq tf BackendMatIdentity
                 then map (fun pt => MulMat pt tf) pts else pts)
                (fillFunc style) (activateBlurTarget_layout _ _ b Hlay))
      as (new & Hlog & Hnd).
    exists new. split; [|exact Hnd]. exact Hlog.
  - apply (fillTriangles_log (w b) (h b)), Hlay.
Qed.

(** ** Clipping *)

Lemma scanTriangleNoAA_inv {A : Type} (P : A -> Prop) (bw bh : Z) (tri : Tri)
      (f : Z -> Z -> A -> A) (a : A) :
  (forall x y a, P a -> P (f x y a)) -> P a -> P (scanTriangleNoAA bw bh tri f a).
Proof.
  intros Hstep Ha.
  apply (scanTriangleNoAA_rel (fun a (_ : unit) => P a) bw bh tri f (fun _ _ u => u) a tt);
    auto.
Qed.

Lemma iterateTriangles_inv {A : Type} (P : A -> Prop) (pts : list BackendVec)
      (F : Tri -> A -> A) (a : A) :
  (forall tri a, P a -> P (F tri a)) -> P a -> P (iterateTriangles pts F a).
Proof.
  intros Hstep Ha.
  apply (iterateTriangles_rel (fun a (_ : unit) => P a) pts F (fun _ u => u) a tt); auto.
Qed.

Lemma image_Rect_origin (bw bh : Z) :
  0 <= bw -> 0 <= bh ->
  image_Rect 0 0 bw bh = mkRectangle (mkPoint 0 0) (mkPoint bw bh).
Proof.
  intros Hw Hh. unfold image_Rect.
  destruct (Z.ltb_spec bw 0); [lia|]. destruct (Z.ltb_spec bh 0); [lia|]. reflexivity.
Qed.

Lemma map_const_repeat {T U : Type} (v : U) (l : list T) :
  map (fun _ => v) l = repeat v (length l).
Proof. induction l as [| a l IH]; cbn; [reflexivity | now rewrite IH]. Qed.

Lemma cleared_is_new (bw bh : Z) (m : AlphaImage) :
  0 <= bw -> 0 <= bh -> shaped bw bh m ->
  fill_pix m 0 = NewAlpha (image_Rect 0 0 bw bh).
Proof.
  intros Hw Hh (Hr & Hst & Hl).
  unfold fill_pix, NewAlpha, raster_new. rewrite image_Rect_origin by assumption.
  unfold Dx, Dy. cbn [Min Max X Y]. rewrite !Z.sub_0_r, Hr, Hst, map_const_repeat.
  f_equal. f_equal. lia.
Qed.

Lemma shape_mask_shaped (bw bh : Z) (pts : list BackendVec) :
  0 <= bw -> 0 <= bh -> shaped bw bh (shape_mask bw bh pts).
Proof.
  intros Hw Hh. unfold shape_mask.
  apply (iterateTriangles_inv (shaped bw bh)).
  - intros tri m Hm. apply (scanTriangleNoAA_inv (shaped bw bh)); [|exact Hm].
    intros x y m' Hm'. apply shaped_raster_set, Hm'.
  - apply shaped_raster_new; assumption.
Qed.

Lemma shape_mask_run (bw bh : Z) (pts : list BackendVec) :
  shape_mask bw bh pts =
  run_pixels (fun x y m => SetAlpha m x y 255) (NewAlpha (image_Rect 0 0 bw bh))
             (coverageNoAA bw bh pts).
Proof.
  unfold shape_mask, coverageNoAA.
  apply (iterateTriangles_rel
           (fun m t => m = run_pixels (fun x y m => SetAlpha m x y 255)
                                      (NewAlpha (image_Rect 0 0 bw bh)) t));
    [|reflexivity].
  intros tri m t ->. apply scanTriangleNoAA_run.
Qed.

(** The rasterized shape covers exactly the pixels of the buffer that the
    scan reports. *)
Lemma shape_mask_covers (bw bh : Z) (pts : list BackendVec) (x y : Z) :
  0 <= bw -> 0 <= bh ->
  AlphaAt (shape_mask bw bh pts) x y <> 0 <->
  in_bounds bw bh x y /\ In (x, y) (coverageNoAA bw bh pts).
Proof.
  intros Hw Hh. rewrite shape_mask_run.
  assert (H : forall t m, shaped bw bh m ->
            shaped bw bh (run_pixels (fun x y m => SetAlpha m x y 255) m t) /\
            (AlphaAt (run_pixels (fun x y m => SetAlpha m x y 255) m t) x y <> 0 <->
             AlphaAt m x y <> 0 \/ (in_bounds bw bh x y /\ In (x, y) t))).
  { induction t as [| [x' y'] t IH]; intros m Hm; cbn.
    - split; [exact Hm|]. tauto.
    - destruct (IH (SetAlpha m x' y' 255) (shaped_raster_set bw bh m x' y' 255 Hm))
        as (H1 & H2).
      split; [exact H1|]. unfold run_pixels in H2. rewrite H2. clear H1 H2 IH.
      destruct (Z.eq_dec x' x) as [-> | Hx]; [destruct (Z.eq_dec y' y) as [-> | Hy]|].
      + destruct (Z_le_dec 0 x), (Z_lt_dec x bw), (Z_le_dec 0 y), (Z_lt_dec y bh);
          try (unfold SetAlpha;
               rewrite (raster_set_outside bw bh m x y 255 Hm)
                 by (unfold in_bounds; lia);
               unfold in_bounds; intuition lia).
        unfold SetAlpha, AlphaAt.
        rewrite (raster_at_set_eq 0 bw bh m x y 255 Hm) by (unfold in_bounds; lia).
        unfold in_bounds. intuition lia.
      + unfold SetAlpha, AlphaAt.
        rewrite (raster_at_set_neq 0 bw bh m x y' x y 255 Hm) by congruence.
        intuition congruence.
      + unfold SetAlpha, AlphaAt.
        rewrite (raster_at_set_neq 0 bw bh m x' y' x y 255 Hm) by congruence.
        intuition congruence. }
  destruct (H (coverageNoAA bw bh pts) (NewAlpha (image_Rect 0 0 bw bh))
              (shaped_raster_new 0 bw bh Hw Hh)) as (_ & H2).
  rewrite H2.
  assert (Hz : AlphaAt (NewAlpha (image_Rect 0 0 bw bh)) x y = 0).
  { rewrite <- (cleared_is_new bw bh (NewAlpha (image_Rect 0 0 bw bh)) Hw Hh
                  (shaped_raster_new 0 bw bh Hw Hh)).
    apply (raster_at_fill_pix 0). }
  rewrite Hz. tauto.
Qed.

Lemma length_clip_pix (p p2 : list Z) : length (clip_pix p p2) = length p.
Proof.
  revert p2. induction p as [| v p IH]; intros [| v2 p2]; cbn; try reflexivity.
  now rewrite IH.
Qed.

Lemma clip_pix_comm (p s1 s2 : list Z) :
  clip_pix (clip_pix p s1) s2 = clip_pix (clip_pix p s2) s1.
Proof.
  revert s1 s2. induction p as [| v p IH]; intros [| a s1] [| c s2]; cbn;
    try reflexivity.
  rewrite IH. f_equal.
  destruct (a =? 0), (c =? 0); reflexivity.
Qed.

Lemma nth_clip_pix (p p2 : list Z) (i : nat) :
  length p = length p2 ->
  nth i (clip_pix p p2) 0 = if nth i p2 0 =? 0 then 0 else nth i p 0.
Proof.
  revert p2 i. induction p as [| v p IH]; intros [| v2 p2] i Hlen; try discriminate.
  - destruct i; reflexivity.
  - destruct i as [| i]; cbn.
    + reflexivity.
    + apply IH. cbn in Hlen. lia.
Qed.

Lemma Clip_unfold (b : SoftwareBackend) (pts : list BackendVec) :
  wf_backend b ->
  Clip b pts =
  set_clip (set_stencil b (shape_mask (w b) (h b) pts))
           (mkRaster (clip_pix (Pix (clip b)) (Pix (shape_mask (w b) (h b) pts)))
                     (Stride (clip b)) (Rect (clip b))).
Proof.
  intros (Hw & Hh & _ & Hi & Hc & Hs). unfold Clip. cbv zeta.
  assert (H : iterateTriangles pts
                (fun tri b => fillTriangleNoAA b tri
                   (fun x y b => set_stencil b (SetAlpha (stencil b) x y 255)))
                (clearStencil b)
              = set_stencil b (shape_mask (w b) (h b) pts)).
  { unfold shape_mask.
    apply (iterateTriangles_rel (fun a m => a = set_stencil b m)).
    - intros tri a m ->. unfold fillTriangleNoAA. cbn [w h set_stencil].
      apply (scanTriangleNoAA_rel (fun a m => a = set_stencil b m)); [|reflexivity].
      intros x y a m' ->. reflexivity.
    - unfold clearStencil. f_equal. apply cleared_is_new; assumption. }
  rewrite H. reflexivity.
Qed.

Lemma Clip_wf (b : SoftwareBackend) (pts : list BackendVec) :
  wf_backend b -> wf_backend (Clip b pts) /\ w (Clip b pts) = w b /\ h (Clip b pts) = h b.
Proof.
  intros Hwf. rewrite Clip_unfold by assumption.
  destruct Hwf as (Hw & Hh & Hm & Hi & Hc & Hs).
  unfold wf_backend. cbn [w h MSAA Image clip stencil set_clip set_stencil].
  split; [|split; reflexivity].
  repeat (split; [assumption|]). split.
  - split; [|split]; cbn [Rect Stride Pix]; try apply Hc.
    rewrite length_clip_pix. apply Hc.
  - apply shape_mask_shaped; assumption.
Qed.

(** The clip mask after [Clip]: the old mask, cut to the rasterized shape. *)
Lemma Clip_pixel (b : SoftwareBackend) (pts : list BackendVec) (x y : Z) :
  wf_backend b ->
  AlphaAt (clip (Clip b pts)) x y =
  if AlphaAt (shape_mask (w b) (h b) pts) x y =? 0 then 0 else AlphaAt (clip b) x y.
Proof.
  intros Hwf. rewrite Clip_unfold by assumption.
  destruct Hwf as (Hw & Hh & Hm & Hi & Hc & Hs).
  pose proof (shape_mask_shaped (w b) (h b) pts Hw Hh) as Hsm.
  cbn [clip set_clip]. unfold AlphaAt, raster_at. cbn [Rect Pix].
  destruct Hc as (Hr & Hst & Hl). destruct Hsm as (Hr' & Hst' & Hl').
  rewrite Hr, Hr'. destruct (Point_In _ _); [|reflexivity].
  unfold PixOffset. cbn [Rect Stride]. rewrite Hr, Hr', Hst, Hst'.
  apply nth_clip_pix. lia.
Qed.

(* ================================================================== *)
(** * The stated properties *)
(* ================================================================== *)

Lemma NewBackend_wf (bw bh : Z) : 0 <= bw -> 0 <= bh -> wf_backend (NewBackend bw bh).
Proof.
  intros Hw Hh. unfold NewBackend, SetSize, ClearClip, wf_backend.
  cbn [w h MSAA Image clip stencil set_clip].
  repeat (split; [lia|]). split; [|split].
  - apply shaped_raster_new; assumption.
  - apply shaped_fill_pix, shaped_raster_new; assumption.
  - apply shaped_raster_new; assumption.
Qed.

Lemma set_MSAA_wf (b : SoftwareBackend) (n : Z) :
  wf_backend b -> n <= 4 -> wf_backend (set_MSAA b n).
Proof.
  intros (Hw & Hh & _ & Hi & Hc & Hs) Hn. unfold wf_backend. cbn. auto 10.
Qed.

(** ** C8: clipping twice commutes and intersects *)

(** C8. For every pair of clip geometries A and B and every starting clip
    mask, [Clip(A)] then [Clip(B)] yields the same clip mask as [Clip(B)]
    then [Clip(A)], and a pixel remains included exactly when the prior
    mask includes it and the scan of A and the scan of B both report it. *)
Theorem Clip_commutes_and_intersects (b : SoftwareBackend) (ptsA ptsB : list BackendVec) :
  wf_backend b ->
  clip (Clip (Clip b ptsA) ptsB) = clip (Clip (Clip b ptsB) ptsA) /\
  forall x y,
    AlphaAt (clip (Clip (Clip b ptsA) ptsB)) x y <> 0 <->
    AlphaAt (clip b) x y <> 0 /\
    In (x, y) (coverageNoAA (w b) (h b) ptsA) /\
    In (x, y) (coverageNoAA (w b) (h b) ptsB).
Proof.
  intros Hwf.
  destruct (Clip_wf b ptsA Hwf) as (HwfA & HwA & HhA).
  destruct (Clip_wf b ptsB Hwf) as (HwfB & HwB & HhB).
  split.
  - rewrite (Clip_unfold (Clip b ptsA) ptsB HwfA), (Clip_unfold (Clip b ptsB) ptsA HwfB).
    rewrite HwA, HhA, HwB, HhB.
    rewrite (Clip_unfold b ptsA Hwf), (Clip_unfold b ptsB Hwf).
    cbn [clip set_clip Pix Stride Rect]. f_equal. apply clip_pix_comm.
  - intros x y. rewrite (Clip_pixel (Clip b ptsA) ptsB x y HwfA), HwA, HhA.
    rewrite (Clip_pixel b ptsA x y Hwf).
    destruct Hwf as (Hw & Hh & _ & _ & Hc & _).
    pose proof (shape_mask_covers (w b) (h b) ptsA x y Hw Hh) as HA.
    pose proof (shape_mask_covers (w b) (h b) ptsB x y Hw Hh) as HB.
    pose proof (AlphaAt_nonzero_in_bounds (w b) (h b) (clip b) x y Hc) as Hin.
    destruct (Z.eqb_spec (AlphaAt (shape_mask (w b) (h b) ptsA) x y) 0) as [EA | EA];
      destruct (Z.eqb_spec (AlphaAt (shape_mask (w b) (h b) ptsB) x y) 0) as [EB | EB];
      tauto.
Qed.

Lemma Clip_commutes_and_intersects_witness :
  clip (Clip (Clip (NewBackend 4 4) unit_square) wide_strip)
  = clip (Clip (Clip (NewBackend 4 4) wide_strip) unit_square).
Proof.
  exact (proj1 (Clip_commutes_and_intersects (NewBackend 4 4) unit_square wide_strip
                  (NewBackend_wf 4 4 ltac:(lia) ltac:(lia)))).
Defined.

(** ** C2: at most one blend per pixel and operation *)

(** C2. During one call to [Fill], [FillImageMask] or [DrawImage] every
    framebuffer pixel is blended at most once, whatever the triangles of the
    geometry cover and whatever [canOverlap] says: the stencil is cleared at
    the start of the operation, and a pixel whose stencil bit is set is
    skipped before painting. *)
Theorem blend_at_most_once (b : SoftwareBackend) :
  wf_backend b ->
  (forall style pts tf canOverlap,
      exists new, blendLog (Fill b style pts tf canOverlap) = new ++ blendLog b
                  /\ NoDup new) /\
  (forall style mask pts,
      exists new, blendLog (FillImageMask b style mask pts) = new ++ blendLog b
                  /\ NoDup new) /\
  (forall simg sx sy sw sh pts alpha,
      exists new, blendLog (DrawImage b simg sx sy sw sh pts alpha) = new ++ blendLog b
                  /\ NoDup new) /\
  (forall x y, AlphaAt (stencil (clearStencil b)) x y = 0) /\
  (forall x y col, 0 < AlphaAt (stencil b) x y -> guarded_blend b x y col = b).
Proof.
  intros Hwf. pose proof (layout_of_wf b Hwf) as Hlay.
  split; [|split; [|split; [|split]]].
  - intros. apply Fill_log, Hwf.
  - intros. unfold FillImageMask. apply (fillQuad_log (w b) (h b)), Hlay.
  - intros. unfold DrawImage. destruct (deleted simg).
    + exists []. split; [reflexivity | constructor].
    + cbv zeta. destruct (closest_mip _ _ _) as [[mip mipW] mipH].
      apply (fillQuad_log (w b) (h b)), Hlay.
  - apply clearStencil_zero.
  - intros x y col Hpos. unfold guarded_blend.
    destruct (_ =? 0); [reflexivity|].
    destruct (Z.ltb_spec 0 (AlphaAt (stencil b) x y)); [reflexivity | lia].
Qed.

Lemma blend_at_most_once_witness :
  exists new,
    blendLog (Fill (NewBackend 4 4) ramp_style square4 BackendMatIdentity true)
    = new ++ blendLog (NewBackend 4 4) /\ NoDup new.
Proof.
  exact (proj1 (blend_at_most_once (NewBackend 4 4)
                  (NewBackend_wf 4 4 ltac:(lia) ltac:(lia)))
               ramp_style square4 BackendMatIdentity true).
Defined.

(** ** C6: fully covered pixels under multi-sampling *)

Lemma clearStencil_set_MSAA_fields (b : SoftwareBackend) (n : Z) :
  Image (clearStencil (set_MSAA b n)) = Image b /\
  clip (clearStencil (set_MSAA b n)) = clip b /\
  MSAA (clearStencil (set_MSAA b n)) = n.
Proof. cbn. auto. Qed.

Lemma painted_cleared (b : SoftwareBackend) (x y : Z) (col : RGBA) :
  painted (clearStencil b) x y col =
  if AlphaAt (clip b) x y =? 0 then RGBAAt (Image b) x y
  else if 0 <? A col then mix col (RGBAAt (Image b) x y)
  else RGBAAt (Image b) x y.
Proof.
  unfold painted. rewrite clearStencil_zero. cbn [clip Image clearStencil set_stencil].
  reflexivity.
Qed.

(** What the multi-sample path leaves in a pixel that one triangle covers
    fully. *)
Lemma fillTriangles_full_pixel (b : SoftwareBackend) (pts : list BackendVec)
      (fn : float -> float -> RGBA) (x y : Z) :
  wf_backend b -> 0 < MSAA b ->
  In (x, y) (fullPixelsMSAA (w b) (h b) (MSAA b) pts) ->
  RGBAAt (Image (fillTriangles b pts fn)) x y
  = painted (clearStencil b) x y (fn (float64_of_int x) (float64_of_int y)).
Proof.
  intros Hwf Hn Hin. pose proof (layout_of_wf b Hwf) as Hlay.
  pose proof (clearStencil_layout _ _ b Hlay) as Hlay1.
  unfold fillTriangles. cbv zeta.
  change (MSAA (clearStencil b)) with (MSAA b).
  destruct (Z.ltb_spec 0 (MSAA b)); [|lia].
  rewrite (fillTrianglesMSAA_run (w b) (h b)) by assumption.
  destruct (run_guarded_present (w b) (h b)
              (fun x y => fn (float64_of_int x) (float64_of_int y))
              (fullPixelsMSAA (w b) (h b) (MSAA b) pts) (clearStencil b) x y Hlay1 Hin)
    as (H1 & H2).
  destruct (run_guarded_layout (w b) (h b)
              (fun x y => fn (float64_of_int x) (float64_of_int y))
              (fullPixelsMSAA (w b) (h b) (MSAA b) pts) (clearStencil b) Hlay1)
    as (L1 & L2 & _).
  change (run_pixels (fun x y b => guarded_blend b x y (fn (float64_of_int x) (float64_of_int y))))
    with (run_pixels (paintFull fn)) in H1, H2, L1, L2.
  rewrite (average_samples_settled (w b) (h b)); [exact H1 | exact L1 |].
  rewrite L2. exact H2.
Qed.

(** What the non-anti-aliased path leaves in a pixel that its scan reports. *)
Lemma fillTriangles_noaa_pixel (b : SoftwareBackend) (pts : list BackendVec)
      (fn : float -> float -> RGBA) (x y : Z) :
  wf_backend b -> MSAA b <= 0 ->
  In (x, y) (coverageNoAA (w b) (h b) pts) ->
  RGBAAt (Image (fillTriangles b pts fn)) x y
  = painted (clearStencil b) x y (fn (float64_of_int x) (float64_of_int y)).
Proof.
  intros Hwf Hn Hin. pose proof (layout_of_wf b Hwf) as Hlay.
  pose proof (clearStencil_layout _ _ b Hlay) as Hlay1.
  unfold fillTriangles. cbv zeta.
  change (MSAA (clearStencil b)) with (MSAA b).
  destruct (Z.ltb_spec 0 (MSAA b)); [lia|].
  rewrite (fillTrianglesNoAA_run (w b) (h b)) by assumption.
  apply (run_guarded_present (w b) (h b)
           (fun x y => fn (float64_of_int x) (float64_of_int y))); assumption.
Qed.

(** C6 (amended). For every triangle list and every pixel that the
    multi-sample scan reports as fully inside one triangle of the list and
    that the non-anti-aliased scan reports as well, the multi-sample path
    leaves the same framebuffer value as the non-anti-aliased path: the
    paint function is evaluated once, at the pixel's coordinates, and
    composited the same way, with no averaging. *)
Theorem msaa_full_pixel_matches_noaa (b : SoftwareBackend) (pts : list BackendVec)
        (fn : float -> float -> RGBA) (msaaLevel x y : Z) :
  wf_backend b -> 0 < msaaLevel <= 4 ->
  In (x, y) (fullPixelsMSAA (w b) (h b) msaaLevel pts) ->
  In (x, y) (coverageNoAA (w b) (h b) pts) ->
  RGBAAt (Image (fillTriangles (set_MSAA b msaaLevel) pts fn)) x y
  = RGBAAt (Image (fillTriangles (set_MSAA b 0) pts fn)) x y /\
  RGBAAt (Image (fillTriangles (set_MSAA b msaaLevel) pts fn)) x y
  = if AlphaAt (clip b) x y =? 0 then RGBAAt (Image b) x y
    else if 0 <? A (fn (float64_of_int x) (float64_of_int y))
         then mix (fn (float64_of_int x) (float64_of_int y)) (RGBAAt (Image b) x y)
         else RGBAAt (Image b) x y.
Proof.
  intros Hwf Hn Hfull Hcov.
  rewrite (fillTriangles_full_pixel (set_MSAA b msaaLevel) pts fn x y
             (set_MSAA_wf b msaaLevel Hwf (proj2 Hn)) (proj1 Hn) Hfull).
  rewrite (fillTriangles_noaa_pixel (set_MSAA b 0) pts fn x y
             (set_MSAA_wf b 0 Hwf ltac:(lia)) (Z.le_refl 0) Hcov).
  rewrite !painted_cleared. split; reflexivity.
Qed.

Lemma has_pixel_In (p : Z * Z) (l : list (Z * Z)) : has_pixel p l = true <-> In p l.
Proof.
  unfold has_pixel. rewrite existsb_exists. split.
  - intros (q & Hq & E). unfold pixel_eqb in E. apply andb_true_iff in E.
    destruct E as [E1 E2]. apply Z.eqb_eq in E1, E2.
    destruct p, q. cbn in *. now subst.
  - intros H. exists p. split; [exact H|]. unfold pixel_eqb. now rewrite !Z.eqb_refl.
Qed.

(** Membership of a pixel in the list a scan of concrete points reports,
    settled by running the scan. *)
Ltac pixel_in :=
  match goal with
  | |- In ?p ?l => refine (proj1 (has_pixel_In p l) _); vm_compute; reflexivity
  end.

Lemma msaa_full_pixel_matches_noaa_witness :
  RGBAAt (Image (fillTriangles (set_MSAA (NewBackend 4 4) 1) square4 (fillFunc ramp_style))) 2 0
  = RGBAAt (Image (fillTriangles (set_MSAA (NewBackend 4 4) 0) square4 (fillFunc ramp_style))) 2 0.
Proof.
  exact (proj1 (msaa_full_pixel_matches_noaa (NewBackend 4 4) square4 (fillFunc ramp_style)
                  1 2 0
                  (NewBackend_wf 4 4 ltac:(lia) ltac:(lia))
                  (conj (eq_refl : (0 ?= 1) = Lt) (fun E : (1 ?= 4) = Gt => ltac:(discriminate E)))
                  (proj1 (has_pixel_In (2, 0)
                            (fullPixelsMSAA (w (NewBackend 4 4)) (h (NewBackend 4 4)) 1 square4))
                         ltac:(vm_compute; reflexivity))
                  (proj1 (has_pixel_In (2, 0)
                            (coverageNoAA (w (NewBackend 4 4)) (h (NewBackend 4 4)) square4))
                         ltac:(vm_compute; reflexivity)))).
Defined.

(** C6, as stated, fails. In the fill of the square [(0,0)-(4,4)] (two
    triangles sharing the diagonal) at level 1, all four sub-samples of
    pixel [(1, 1)] are inside the rasterized coverage, each inside one of
    the two triangles, but no triangle holds all four: the pixel is
    averaged over its sub-sample positions, and under a colour ramp the
    result differs from the non-anti-aliased one. *)
Lemma msaa_covered_pixel_differs :
  length (pixel_samples 1 1 (samplesMSAA 4 4 1 square4)) = 4%nat /\
  In (1, 1) (coverageNoAA 4 4 square4) /\
  RGBAAt (Image (fillTriangles (set_MSAA (NewBackend 4 4) 1) square4 (fillFunc ramp_style))) 1 1
  = mkRGBA 96 96 96 255 /\
  RGBAAt (Image (fillTriangles (set_MSAA (NewBackend 4 4) 0) square4 (fillFunc ramp_style))) 1 1
  = mkRGBA 64 64 64 255 /\
  RGBAAt (Image (fillTriangles (set_MSAA (NewBackend 4 4) 1) square4 (fillFunc ramp_style))) 1 1
  <> RGBAAt (Image (fillTriangles (set_MSAA (NewBackend 4 4) 0) square4 (fillFunc ramp_style))) 1 1.
Proof.
  assert (H1 : RGBAAt (Image (fillTriangles (set_MSAA (NewBackend 4 4) 1) square4
                                (fillFunc ramp_style))) 1 1 = mkRGBA 96 96 96 255)
    by (vm_compute; reflexivity).
  assert (H2 : RGBAAt (Image (fillTriangles (set_MSAA (NewBackend 4 4) 0) square4
                                (fillFunc ramp_style))) 1 1 = mkRGBA 64 64 64 255)
    by (vm_compute; reflexivity).
  split; [vm_compute; reflexivity|].
  split; [pixel_in|].
  split; [exact H1|]. split; [exact H2|].
  rewrite H1, H2. discriminate.
Qed.

(** ** C5: the colour blended into a partially covered pixel *)

(** C5 (amended). In the multi-sample fill path with level N, a pixel that
    no triangle covers fully and that has sub-samples in coverage is
    blended with the sum of the colours evaluated at those sub-samples,
    each channel divided (integer division) by the total sample count
    [(N+1)^2]: the colour weighted by the coverage. *)
Theorem msaa_partial_pixel_color (b : SoftwareBackend) (pts : list BackendVec)
        (fn : float -> float -> RGBA) (x y : Z) :
  wf_backend b -> 0 < MSAA b ->
  AlphaAt (clip b) x y <> 0 ->
  ~ In (x, y) (fullPixelsMSAA (w b) (h b) (MSAA b) pts) ->
  pixel_samples x y (samplesMSAA (w b) (h b) (MSAA b) pts) <> [] ->
  RGBAAt (Image (fillTriangles b pts fn)) x y
  = mix (coverage_weighted ((MSAA b + 1) * (MSAA b + 1))
           (sample_colors fn (pixel_samples x y (samplesMSAA (w b) (h b) (MSAA b) pts))))
        (RGBAAt (Image b) x y).
Proof.
  intros Hwf Hn Hclip Hnot Hsome. pose proof (layout_of_wf b Hwf) as Hlay.
  pose proof (clearStencil_layout _ _ b Hlay) as Hlay1.
  unfold fillTriangles. cbv zeta.
  change (MSAA (clearStencil b)) with (MSAA b).
  destruct (Z.ltb_spec 0 (MSAA b)); [|lia].
  rewrite (fillTrianglesMSAA_run (w b) (h b)) by assumption.
  destruct (run_guarded_absent (w b) (h b)
              (fun x y => fn (float64_of_int x) (float64_of_int y))
              (fullPixelsMSAA (w b) (h b) (MSAA b) pts) (clearStencil b) x y Hlay1 Hnot)
    as (H1 & H2).
  destruct (run_guarded_layout (w b) (h b)
              (fun x y => fn (float64_of_int x) (float64_of_int y))
              (fullPixelsMSAA (w b) (h b) (MSAA b) pts) (clearStencil b) Hlay1)
    as (L1 & L2 & _).
  change (run_pixels (fun x y b => guarded_blend b x y (fn (float64_of_int x) (float64_of_int y))))
    with (run_pixels (paintFull fn)) in H1, H2, L1, L2.
  assert (Hb : in_bounds (w b) (h b) x y).
  { destruct Hwf as (_ & _ & _ & _ & Hc & _).
    apply (AlphaAt_nonzero_in_bounds (w b) (h b) (clip b)); assumption. }
  rewrite (average_samples_pixel (w b) (h b)); try assumption.
  - rewrite H1. reflexivity.
  - reflexivity.
  - apply Hb.
  - rewrite L2. exact Hclip.
  - rewrite H2, clearStencil_zero. lia.
Qed.

Lemma has_pixel_not_In (p : Z * Z) (l : list (Z * Z)) : has_pixel p l = false -> ~ In p l.
Proof. intros H Hin. apply has_pixel_In in Hin. congruence. Qed.

Lemma msaa_partial_pixel_color_witness :
  RGBAAt (Image (fillTriangles (set_MSAA (NewBackend 4 4) 1) corner_triangle solid_red)) 3 0
  = mix (coverage_weighted
           ((MSAA (set_MSAA (NewBackend 4 4) 1) + 1) * (MSAA (set_MSAA (NewBackend 4 4) 1) + 1))
           (sample_colors solid_red
              (pixel_samples 3 0
                 (samplesMSAA (w (set_MSAA (NewBackend 4 4) 1)) (h (set_MSAA (NewBackend 4 4) 1))
                              (MSAA (set_MSAA (NewBackend 4 4) 1)) corner_triangle))))
        (RGBAAt (Image (set_MSAA (NewBackend 4 4) 1)) 3 0).
Proof.
  refine (msaa_partial_pixel_color (set_MSAA (NewBackend 4 4) 1) corner_triangle solid_red 3 0
            (set_MSAA_wf _ 1 (NewBackend_wf 4 4 _ _) _) _ _ _ _).
  - lia.
  - lia.
  - lia.
  - reflexivity.
  - vm_compute. discriminate.
  - refine (has_pixel_not_In _ _ _). vm_compute. reflexivity.
  - vm_compute. discriminate.
Defined.

(** C5, as stated, fails where it equates the blended colour with the
    unweighted mean of the in-coverage sub-sample colours. In the fill of
    the triangle [(0,0) (4,0) (0,4)] with opaque red at level 1, pixel
    [(3, 0)] has one of its four sub-samples in coverage: the colour
    blended is red divided by four, not the mean of the one sample, red. *)
Lemma msaa_partial_pixel_not_the_mean :
  ~ In (3, 0) (fullPixelsMSAA 4 4 1 corner_triangle) /\
  sample_colors solid_red (pixel_samples 3 0 (samplesMSAA 4 4 1 corner_triangle)) = [red] /\
  coverage_weighted ((1 + 1) * (1 + 1)) [red] = mkRGBA 63 0 0 63 /\
  unweighted_mean [red] = red /\
  RGBAAt (Image (fillTriangles (set_MSAA (NewBackend 4 4) 1) corner_triangle solid_red)) 3 0
  = mix (mkRGBA 63 0 0 63) transparent /\
  mix (mkRGBA 63 0 0 63) transparent <> mix (unweighted_mean [red]) transparent.
Proof.
  split; [refine (has_pixel_not_In _ _ _); vm_compute; reflexivity|].
  split; [vm_compute; reflexivity|].
  split; [vm_compute; reflexivity|].
  split; [vm_compute; reflexivity|].
  split; [vm_compute; reflexivity|].
  vm_compute. discriminate.
Qed.

(** ** C9: the alpha of a pixel never decreases *)

Lemma uint8_of_float_range (x : float) : is_uint8 (uint8_of_float x).
Proof. unfold is_uint8, uint8_of_float. apply Z.mod_pos_bound. lia. Qed.

Lemma uint8_of_int_range (n : Z) : is_uint8 (uint8_of_int n).
Proof. unfold is_uint8, uint8_of_int. apply Z.mod_pos_bound. lia. Qed.

Lemma transparent_wf : wf_color transparent.
Proof. unfold wf_color, is_uint8. cbn. lia. Qed.

Lemma mix_wf (s d : RGBA) : wf_color (mix s d).
Proof.
  rewrite mix_channels. unfold wf_color, round255, alpha_of_units. cbn [R G B A].
  repeat split; apply uint8_of_float_range.
Qed.

Lemma mix_alpha_exact_eq (s d : RGBA) :
  wf_color s -> wf_color d -> A (mix s d) = mix_alpha_exact (A s) (A d).
Proof.
  intros (_ & _ & _ & Hs) (_ & _ & _ & Hd).
  rewrite mix_channels. cbn [A]. apply alpha_of_units_exact; assumption.
Qed.

Lemma mix_alpha_ge (s d : RGBA) : wf_color s -> wf_color d -> A d <= A (mix s d).
Proof.
  intros Hs Hd. rewrite (mix_alpha_exact_eq s d Hs Hd).
  apply mix_alpha_exact_bounds; [apply Hs | apply Hd].
Qed.

Lemma coverage_weighted_wf (samples : Z) (cols : list RGBA) :
  wf_color (coverage_weighted samples cols).
Proof. unfold wf_color, coverage_weighted. cbn. repeat split; apply uint8_of_int_range. Qed.

Lemma Forall_list_set {T : Type} (P : T -> Prop) (l : list T) (n : nat) (v : T) :
  Forall P l -> P v -> Forall P (list_set l n v).
Proof.
  intros Hl Hv. revert n. induction Hl as [| a l Ha Hl IH]; intros [| n]; cbn;
    constructor; auto.
Qed.

Lemma RGBAAt_wf (img : RGBAImage) (x y : Z) : wf_image img -> wf_color (RGBAAt img x y).
Proof.
  intros Hwf. unfold RGBAAt, raster_at.
  destruct (Point_In _ _); [|apply transparent_wf].
  set (n := Z.to_nat _). clearbody n. unfold wf_image in Hwf. revert n.
  induction Hwf as [| a l Ha Hl IH]; intros [| n]; cbn; auto using transparent_wf.
Qed.

Lemma SetRGBA_wf (img : RGBAImage) (x y : Z) (c : RGBA) :
  wf_image img -> wf_color c -> wf_image (SetRGBA img x y c).
Proof.
  intros Hwf Hc. unfold SetRGBA, raster_set. destruct (Point_In _ _); [|exact Hwf].
  unfold wf_image. cbn [Pix]. apply Forall_list_set; assumption.
Qed.

Lemma NewRGBA_wf (r : Rectangle) : wf_image (NewRGBA r).
Proof.
  unfold wf_image, NewRGBA, raster_new. cbn [Pix].
  apply Forall_forall. intros c Hc. apply repeat_spec in Hc. subst. apply transparent_wf.
Qed.

Lemma painted_alpha (b : SoftwareBackend) (x y : Z) (col : RGBA) :
  wf_image (Image b) -> wf_color col ->
  wf_color (painted b x y col) /\ A (RGBAAt (Image b) x y) <= A (painted b x y col).
Proof.
  intros Hi Hc. pose proof (RGBAAt_wf (Image b) x y Hi) as Hp. unfold painted.
  destruct (_ =? 0); [split; [exact Hp | lia]|].
  destruct (0 <? AlphaAt _ _ _); [split; [exact Hp | lia]|].
  destruct (0 <? A col); [|split; [exact Hp | lia]].
  split; [apply mix_wf | apply mix_alpha_ge; assumption].
Qed.

Lemma guarded_blend_wf_image (b : SoftwareBackend) (x y : Z) (col : RGBA) :
  wf_image (Image b) -> wf_image (Image (guarded_blend b x y col)).
Proof.
  intros Hi. unfold guarded_blend.
  destruct (_ =? 0); [exact Hi|]. destruct (0 <? AlphaAt _ _ _); [exact Hi|].
  cbv zeta. destruct (0 <? A col); [|exact Hi].
  cbn [Image blend set_stencil]. apply SetRGBA_wf; [exact Hi | apply mix_wf].
Qed.

Lemma guarded_blend_alpha (bw bh : Z) (img0 : RGBAImage) (b : SoftwareBackend)
      (x y : Z) (col : RGBA) :
  layout bw bh b -> wf_color col ->
  alpha_grows img0 b -> alpha_grows img0 (guarded_blend b x y col).
Proof.
  intros Hlay Hc (Hi & Hge). split; [apply guarded_blend_wf_image, Hi|].
  intros x' y'. specialize (Hge x' y').
  destruct (Z.eq_dec x x') as [<- | Hx]; [destruct (Z.eq_dec y y') as [<- | Hy]|].
  - rewrite (guarded_blend_pixel bw bh b x y col Hlay).
    pose proof (painted_alpha b x y col Hi Hc). lia.
  - rewrite (proj1 (guarded_blend_other_pixel bw bh b x y col Hlay x y' ltac:(congruence))).
    exact Hge.
  - rewrite (proj1 (guarded_blend_other_pixel bw bh b x y col Hlay x' y' ltac:(congruence))).
    exact Hge.
Qed.

Lemma marked_blend_alpha (bw bh : Z) (img0 : RGBAImage) (b : SoftwareBackend)
      (x y : Z) (col : RGBA) :
  layout bw bh b -> in_bounds bw bh x y -> wf_color col ->
  alpha_grows img0 b -> alpha_grows img0 (marked_blend b x y col).
Proof.
  intros Hlay Hb Hc (Hi & Hge). split.
  - unfold marked_blend. cbn [Image blend set_stencil].
    apply SetRGBA_wf; [exact Hi | apply mix_wf].
  - intros x' y'. specialize (Hge x' y').
    destruct (Z.eq_dec x x') as [<- | Hx]; [destruct (Z.eq_dec y y') as [<- | Hy]|].
    + rewrite (proj1 (marked_blend_pixel bw bh b x y col Hlay Hb)).
      pose proof (mix_alpha_ge col (RGBAAt (Image b) x y) Hc (RGBAAt_wf _ _ _ Hi)). lia.
    + rewrite (proj1 (marked_blend_other_pixel bw bh b x y col Hlay x y' ltac:(congruence))).
      exact Hge.
    + rewrite (proj1 (marked_blend_other_pixel bw bh b x y col Hlay x' y' ltac:(congruence))).
      exact Hge.
Qed.

Lemma average_samples_alpha (bw bh samples : Z) (fn : float -> float -> RGBA)
      (img0 : RGBAImage) (n : nat) (pxs : list msaaPixel) (b : SoftwareBackend) :
  layout bw bh b -> alpha_grows img0 b ->
  alpha_grows img0 (average_samples samples fn n pxs b).
Proof.
  revert pxs b. induction n as [| n IH]; intros pxs b Hlay Hal; [exact Hal|].
  destruct pxs as [| px rest]; [exact Hal|].
  rewrite average_samples_step. destruct (_ || _) eqn:Hg; [apply IH; assumption|].
  destruct (guard_passed bw bh b px Hlay Hg) as (Hb & Hc & Hs).
  apply IH.
  - apply marked_blend_layout, Hlay.
  - apply (marked_blend_alpha bw bh); try assumption. apply coverage_weighted_wf.
Qed.

Lemma quad_average_samples_alpha (bw bh samples : Z)
      (fn : float -> float -> float -> float -> RGBA)
      (img0 : RGBAImage) (n : nat) (pxs : list msaaPixel) (b : SoftwareBackend) :
  layout bw bh b -> alpha_grows img0 b ->
  alpha_grows img0 (quad_average_samples samples fn n pxs b).
Proof.
  revert pxs b. induction n as [| n IH]; intros pxs b Hlay Hal; [exact Hal|].
  destruct pxs as [| px rest]; [exact Hal|].
  cbn [quad_average_samples]. destruct (_ || _) eqn:Hg; [apply IH; assumption|].
  destruct (guard_passed bw bh b px Hlay Hg) as (Hb & Hc & Hs).
  destruct (quad_sum_samples fn (ix px) (iy px) (px :: rest) (0, 0, 0, 0))
    as [[[[mr mg] mb] ma] marked].
  apply IH.
  - apply (marked_blend_layout bw bh b), Hlay.
  - apply (marked_blend_alpha bw bh); try assumption.
    unfold wf_color. cbn. repeat split; apply uint8_of_int_range.
Qed.

Lemma alpha_grows_start (b : SoftwareBackend) :
  wf_image (Image b) -> alpha_grows (Image b) (clearStencil b).
Proof. intros Hi. split; [exact Hi|]. intros x y. cbn. lia. Qed.

Lemma fillTriangles_alpha (bw bh : Z) (b : SoftwareBackend) (pts : list BackendVec)
      (fn : float -> float -> RGBA) :
  layout bw bh b -> wf_image (Image b) -> wf_paint fn ->
  alpha_grows (Image b) (fillTriangles b pts fn).
Proof.
  intros Hlay Hi Hfn. pose proof (clearStencil_layout bw bh b Hlay) as Hlay1.
  set (P := fun a => layout bw bh a /\ alpha_grows (Image b) a).
  assert (Hstep : forall x y a, P a ->
            P (guarded_blend a x y (fn (float64_of_int x) (float64_of_int y)))).
  { intros x y a [Ha1 Ha2]. split.
    - apply guarded_blend_layout, Ha1.
    - apply (guarded_blend_alpha bw bh); try assumption. apply Hfn. }
  assert (HP : P (clearStencil b)) by (split; [exact Hlay1 | apply alpha_grows_start, Hi]).
  unfold fillTriangles. cbv zeta. destruct (0 <? MSAA (clearStencil b)).
  - rewrite (fillTrianglesMSAA_run bw bh) by assumption.
    destruct (run_pixels_inv P (paintFull fn) (clearStencil b)
                (fullPixelsMSAA bw bh (MSAA (clearStencil b)) pts) Hstep HP) as [H1 H2].
    apply (average_samples_alpha bw bh); assumption.
  - rewrite (fillTrianglesNoAA_run bw bh) by assumption.
    apply (run_pixels_inv P (paintNoAA fn) (clearStencil b) (coverageNoAA bw bh pts) Hstep HP).
Qed.

Lemma fillQuad_alpha (bw bh : Z) (b : SoftwareBackend) (pts : Quad)
      (fn : float -> float -> float -> float -> RGBA) :
  layout bw bh b -> wf_image (Image b) -> (forall x y u v, wf_color (fn x y u v)) ->
  alpha_grows (Image b) (fillQuad b pts fn).
Proof.
  intros Hlay Hi Hfn. pose proof (clearStencil_layout bw bh b Hlay) as Hlay1.
  set (P := fun a => layout bw bh a /\ alpha_grows (Image b) a).
  assert (Hstep : forall x y u v a, P a -> P (paintQuad fn x y u v a)).
  { intros x y u v a [Ha1 Ha2]. rewrite paintQuad_guarded. split.
    - apply guarded_blend_layout, Ha1.
    - apply (guarded_blend_alpha bw bh); try assumption. apply Hfn. }
  assert (HP : P (clearStencil b)) by (split; [exact Hlay1 | apply alpha_grows_start, Hi]).
  unfold fillQuad. cbv zeta. destruct (0 <? MSAA (clearStencil b)).
  - pose proof (scanQuadMSAA_inv P (w (clearStencil b)) (h (clearStencil b)) pts
                  (MSAA (clearStencil b)) (paintQuad fn) ([], clearStencil b) Hstep HP)
      as [H1 H2].
    destruct (scanQuadMSAA _ _ _ _ _ _) as [m a]. cbn [snd] in H1, H2.
    apply (quad_average_samples_alpha bw bh); assumption.
  - apply (scanQuadNoAA_inv P); assumption.
Qed.

(** *** The blurred path *)

Lemma sums_color_wf (s : ChanSums) (factor : float) : wf_color (sums_color s factor).
Proof.
  destruct s as [[[r g] b] a]. unfold wf_color. cbn.
  repeat split; apply uint8_of_float_range.
Qed.

Section BoxLine.
Variables (at_ : Z -> RGBA) (put : Z -> RGBA -> RGBAImage -> RGBAImage).
Hypothesis put_wf : forall k c res, wf_image res -> wf_color c -> wf_image (put k c res).

Lemma box_slide_wf (fuel : nat) (n size x : Z) (sums : ChanSums) (samples : Z)
        (result : RGBAImage) :
    wf_image result -> wf_image (box_slide fuel at_ put n size x sums samples result).
  Proof.
    revert x sums samples result.
    induction fuel as [| fuel IH]; intros x sums samples result Hr; cbn [box_slide].
    - exact Hr.
    - destruct (n - 1 <=? x); [apply put_wf; [exact Hr | apply sums_color_wf]|].
      destruct (if 0 <=? x - size then _ else _) as [sums1 samples1].
      destruct (if x + 1 + size <? n then _ else _) as [sums2 samples2].
      apply IH, put_wf; [exact Hr | apply sums_color_wf].
  Qed.

Lemma box_line_wf (n size : Z) (result : RGBAImage) :
    wf_image result -> wf_image (box_line at_ put n size result).
  Proof.
    intros Hr. unfold box_line. destruct (n <=? size).
    - apply (for_upto_inv wf_image); [|exact Hr].
      intros k res Hres. apply put_wf; [exact Hres | apply sums_color_wf].
    - apply box_slide_wf, Hr.
  Qed.

End BoxLine.

Lemma box3x_wf (img : RGBAImage) (size : Z) : wf_image (box3x img size).
Proof.
  unfold box3x. cbv zeta. apply (for_upto_inv wf_image); [|apply NewRGBA_wf].
  intros y res Hres. apply box_line_wf; [|exact Hres].
  intros k c r Hr Hc. apply SetRGBA_wf; assumption.
Qed.

Lemma box3y_wf (img : RGBAImage) (size : Z) : wf_image (box3y img size).
Proof.
  unfold box3y. cbv zeta. apply (for_upto_inv wf_image); [|apply NewRGBA_wf].
  intros x res Hres. apply box_line_wf; [|exact Hres].
  intros k c r Hr Hc. apply SetRGBA_wf; assumption.
Qed.

Lemma box3_wf (img : RGBAImage) (size : float) : wf_image (box3 img size).
Proof. unfold box3. destruct (box3_radii size) as [[ra rb] rc]. apply box3y_wf. Qed.

Lemma over_table_ok :
  forallb (fun d => forallb (over_alpha_agrees d) u8_values) u8_values = true.
Proof. vm_cast_no_check (eq_refl true). Qed.

Lemma over_alpha_ge (d s : Z) : is_uint8 d -> is_uint8 s -> d <= over_channel d s s.
Proof.
  intros Hd Hs.
  pose proof (proj1 (forallb_forall _ _) over_table_ok _ (u8_values_complete d Hd)) as H.
  pose proof (proj1 (forallb_forall _ _) H _ (u8_values_complete s Hs)) as H'.
  apply Z.leb_le. exact H'.
Qed.

Lemma over_channel_range (d s sa : Z) : is_uint8 (over_channel d s sa).
Proof. unfold over_channel. cbv zeta. apply uint8_of_int_range. Qed.

Lemma over_pixel_wf (d s : RGBA) : wf_color (over_pixel d s).
Proof.
  unfold wf_color, over_pixel. cbn [R G B A].
  repeat split; apply over_channel_range.
Qed.

Lemma draw_Over_alpha (bw bh : Z) (dst : RGBAImage) (r : Rectangle) (src : RGBAImage)
      (sp : Point) :
  shaped bw bh dst -> wf_image dst -> wf_image src ->
  wf_image (draw_Draw dst r src sp Over) /\
  forall x y, A (RGBAAt dst x y) <= A (RGBAAt (draw_Draw dst r src sp Over) x y).
Proof.
  intros Hs Hd Hsrc. unfold draw_Draw.
  destruct (draw_clip _ _ _ _) as [r' sp'].
  destruct (Empty r'); [split; [exact Hd | intros; lia]|].
  set (Q := fun d : RGBAImage =>
              shaped bw bh d /\ wf_image d /\
              forall x y, A (RGBAAt dst x y) <= A (RGBAAt d x y)).
  assert (HQ : Q dst) by (repeat split; [apply Hs | apply Hs | apply Hs | exact Hd | intros; lia]).
  assert (H : Q (for_upto (Y (Min r')) (Y (Max r') - 1)
                   (fun y d => for_upto (X (Min r')) (X (Max r') - 1)
                      (fun x d =>
                         SetRGBA d x y
                           (over_pixel (RGBAAt d x y)
                              (RGBAAt src (X sp' + (x - X (Min r'))) (Y sp' + (y - Y (Min r'))))))
                      d) dst)).
  { apply (for_upto_inv Q); [|exact HQ]. intros y d Hq.
    apply (for_upto_inv Q); [|exact Hq]. clear d Hq. intros x d (Q1 & Q2 & Q3).
    set (s := RGBAAt src _ _).
    split; [apply shaped_raster_set, Q1|].
    split; [apply SetRGBA_wf; [exact Q2 | apply over_pixel_wf]|].
    intros x' y'. specialize (Q3 x' y').
    destruct (Z.eq_dec x x') as [<- | Hx]; [destruct (Z.eq_dec y y') as [<- | Hy]|].
    - destruct (Z_le_dec 0 x), (Z_lt_dec x bw), (Z_le_dec 0 y), (Z_lt_dec y bh);
        try (unfold SetRGBA;
             rewrite (raster_set_outside bw bh d x y _ Q1) by (unfold in_bounds; lia);
             exact Q3).
      unfold SetRGBA, RGBAAt at 2.
      rewrite (raster_at_set_eq transparent bw bh d x y _ Q1) by (unfold in_bounds; lia).
      cbn [A over_pixel].
      pose proof (RGBAAt_wf d x y Q2) as (_ & _ & _ & Ha).
      pose proof (RGBAAt_wf src (X sp' + (x - X (Min r'))) (Y sp' + (y - Y (Min r'))) Hsrc)
        as (_ & _ & _ & Hb).
      fold s in Hb.
      pose proof (over_alpha_ge _ _ Ha Hb). lia.
    - unfold SetRGBA, RGBAAt at 2.
      rewrite (raster_at_set_neq transparent bw bh d x y x y' _ Q1) by congruence.
      exact Q3.
    - unfold SetRGBA, RGBAAt at 2.
      rewrite (raster_at_set_neq transparent bw bh d x y x' y' _ Q1) by congruence.
      exact Q3. }
  destruct H as (_ & H2 & H3). split; assumption.
Qed.

Lemma average_samples_blurSwap (samples : Z) (fn : float -> float -> RGBA) (n : nat)
      (pxs : list msaaPixel) (b : SoftwareBackend) :
  blurSwap (average_samples samples fn n pxs b) = blurSwap b.
Proof.
  revert pxs b. induction n as [| n IH]; intros pxs b; [reflexivity|].
  destruct pxs as [| px rest]; [reflexivity|].
  rewrite average_samples_step. destruct (_ || _); [apply IH|].
  rewrite IH. reflexivity.
Qed.

Lemma fillTriangles_blurSwap (bw bh : Z) (b : SoftwareBackend) (pts : list BackendVec)
      (fn : float -> float -> RGBA) :
  layout bw bh b -> blurSwap (fillTriangles b pts fn) = blurSwap b.
Proof.
  intros Hlay. pose proof (clearStencil_layout bw bh b Hlay) as Hlay1.
  set (P := fun a => blurSwap a = blurSwap b).
  assert (Hstep : forall x y a, P a ->
            P (guarded_blend a x y (fn (float64_of_int x) (float64_of_int y)))).
  { intros x y a Ha. unfold P.
    destruct (guarded_blend_frame a x y (fn (float64_of_int x) (float64_of_int y)))
      as (_ & _ & ->). exact Ha. }
  assert (HP : P (clearStencil b)) by reflexivity.
  unfold fillTriangles. cbv zeta. destruct (0 <? MSAA (clearStencil b)).
  - rewrite (fillTrianglesMSAA_run bw bh) by assumption.
    rewrite average_samples_blurSwap.
    apply (run_pixels_inv P (paintFull fn) (clearStencil b) _ Hstep HP).
  - rewrite (fillTrianglesNoAA_run bw bh) by assumption.
    apply (run_pixels_inv P (paintNoAA fn) (clearStencil b) _ Hstep HP).
Qed.

Lemma ColorAt_wf (g : BackendGradient) (pos : float) :
  Forall (fun stop => wf_color (Color stop)) g -> wf_color (ColorAt g pos).
Proof.
  intros Hg.
  assert (Hat : forall i, wf_color (Color (stop_at g i))).
  { intros i. unfold stop_at. set (n := Z.to_nat i). clearbody n. revert n.
    induction Hg as [| s l Hs Hl IH]; intros [| n]; cbn; auto using transparent_wf. }
  unfold ColorAt.
  destruct (_ =? 0); [apply transparent_wf|].
  destruct (_ =? 1); [apply Hat|].
  destruct (scan_stops g pos 0 (-1)) as [bi ai].
  destruct (bi =? -1); [apply Hat|].
  destruct (ai =? -1); [apply Hat|].
  cbv zeta. unfold wf_color. cbn [R G B A].
  repeat split; apply uint8_of_float_range.
Qed.

Lemma fillFunc_wf (style : BackendFillStyle) : wf_style style -> wf_paint (fillFunc style).
Proof.
  unfold wf_style, fillFunc. destruct (style_Source style) as [| data | eval]; intros H.
  - intros x y. exact H.
  - intros x y. apply ColorAt_wf, H.
  - exact H.
Qed.

Lemma Fill_alpha (b : SoftwareBackend) (style : BackendFillStyle) (pts : list BackendVec)
      (tf : BackendMat) (canOverlap : bool) (x y : Z) :
  wf_backend b -> wf_image (Image b) -> wf_style style ->
  A (RGBAAt (Image b) x y) <= A (RGBAAt (Image (Fill b style pts tf canOverlap)) x y).
Proof.
  intros Hwf Hi Hst. pose proof (layout_of_wf b Hwf) as Hlay.
  pose proof (fillFunc_wf style Hst) as Hfn.
  unfold Fill. cbv zeta.
  set (pts' := if BackendMat_neq tf BackendMatIdentity then _ else pts).
  destruct (0 <? style_Blur style)%float.
  - pose proof (activateBlurTarget_layout _ _ b Hlay) as Hlay1.
    assert (Hi1 : wf_image (Image (activateBlurTarget b))) by apply NewRGBA_wf.
    destruct (fillTriangles_alpha (w b) (h b) (activateBlurTarget b) pts' (fillFunc style)
                Hlay1 Hi1 Hfn) as (Hi2 & _).
    pose proof (fillTriangles_blurSwap (w b) (h b) (activateBlurTarget b) pts'
                  (fillFunc style) Hlay1) as Hsw.
    unfold drawBlurred. cbv zeta. cbn [Image set_Image blurSwap].
    rewrite Hsw. cbn [blurSwap activateBlurTarget set_Image set_blurSwap].
    apply (draw_Over_alpha (w b) (h b)).
    + apply Hlay.
    + exact Hi.
    + apply box3_wf.
  - apply (fillTriangles_alpha (w b) (h b)); assumption.
Qed.

Lemma alphaColor_wf (col : RGBA) (alpha : Z) : wf_color (alphaColor col alpha).
Proof.
  unfold wf_color, alphaColor. cbn [RGBA_RGBA]. cbv zeta. cbn [R G B A].
  repeat split; try apply uint8_of_float_range; unfold is_uint8; lia.
Qed.

Lemma toRGBA_wf (c : RGBA) : wf_color (toRGBA c).
Proof.
  unfold wf_color, toRGBA. cbn [RGBA_RGBA]. cbv zeta. cbn [R G B A].
  repeat split; apply uint8_of_int_range.
Qed.

(** C9. The compositor never decreases a pixel's alpha: for every source
    colour [s] and destination colour [d] the alpha of [mix s d] is at least
    the alpha of [d]; so the alpha of every framebuffer pixel is at least
    what it was after each blended paint operation ([Fill], blurred or not,
    [FillImageMask], [DrawImage]). *)
Theorem alpha_never_decreases :
  (forall s d, wf_color s -> wf_color d -> A d <= A (mix s d)) /\
  (forall b, wf_backend b -> wf_image (Image b) ->
     (forall style pts tf canOverlap x y,
         wf_style style ->
         A (RGBAAt (Image b) x y)
         <= A (RGBAAt (Image (Fill b style pts tf canOverlap)) x y)) /\
     (forall style mask pts x y,
         A (RGBAAt (Image b) x y)
         <= A (RGBAAt (Image (FillImageMask b style mask pts)) x y)) /\
     (forall simg sx sy sw sh pts alpha x y,
         A (RGBAAt (Image b) x y)
         <= A (RGBAAt (Image (DrawImage b simg sx sy sw sh pts alpha)) x y))).
Proof.
  split; [exact mix_alpha_ge|].
  intros b Hwf Hi. pose proof (layout_of_wf b Hwf) as Hlay.
  split; [|split].
  - intros. apply Fill_alpha; assumption.
  - intros style mask pts x y. unfold FillImageMask.
    apply (fillQuad_alpha (w b) (h b)); try assumption.
    intros x0 y0 u v. cbv zeta.
    destruct (_ =? 0); [apply transparent_wf | apply alphaColor_wf].
  - intros simg sx sy sw sh pts alpha x y. unfold DrawImage.
    destruct (deleted simg); [lia|].
    cbv zeta. destruct (closest_mip _ _ _) as [[mip mipW] mipH].
    apply (fillQuad_alpha (w b) (h b)); try assumption.
    intros x0 y0 u v. apply toRGBA_wf.
Qed.

Lemma alpha_never_decreases_witness :
  A (mkRGBA 10 20 30 100) <= A (mix (mkRGBA 200 100 50 128) (mkRGBA 10 20 30 100)).
Proof.
  refine (proj1 alpha_never_decreases (mkRGBA 200 100 50 128) (mkRGBA 10 20 30 100) _ _);
    unfold wf_color, is_uint8; cbn; lia.
Defined.

(** ** C1: what the compositor computes *)

Lemma mix_alpha_exact_opaque_dest (a1 : Z) : is_uint8 a1 -> mix_alpha_exact a1 255 = 255.
Proof.
  unfold is_uint8, mix_alpha_exact. intros H.
  assert ((2 * ((a1 - 255) * a1 + 255 * 255) + 255) / 510 <= 255)
    by (apply Z.lt_succ_r, Z.div_lt_upper_bound; nia).
  lia.
Qed.

Lemma mix_alpha_exact_opaque_src (a2 : Z) : is_uint8 a2 -> mix_alpha_exact 255 a2 = 255.
Proof.
  unfold is_uint8, mix_alpha_exact. intros H.
  replace (2 * ((255 - a2) * 255 + 255 * a2) + 255) with (255 * 510 + 255) by lia.
  replace ((255 * 510 + 255) / 510) with 255 by reflexivity. lia.
Qed.

Lemma mix_alpha_exact_clear_src (a2 : Z) : is_uint8 a2 -> mix_alpha_exact 0 a2 = a2.
Proof.
  unfold is_uint8, mix_alpha_exact. intros H.
  replace (2 * ((0 - a2) * 0 + 255 * a2) + 255) with (a2 * 510 + 255) by lia.
  rewrite Z.div_add_l by lia. replace (255 / 510) with 0 by reflexivity. lia.
Qed.

(** C1 (amended). For every source colour [s] and destination colour [d],
    [mix s d] interpolates from the destination to the source by the source
    alpha, in straight alpha with double-precision intermediates and each
    channel rounded to the nearest integer at the end:
    [out.rgb = rgb_d + (rgb_s - rgb_d) * a_s] and
    [out.a = max (a_d + (a_s - a_d) * a_s, a_d)]. The alpha is 1 over an
    opaque destination and for an opaque source, and the destination's for
    a fully transparent source. *)
Theorem mix_interpolates_by_source_alpha (s d : RGBA) :
  wf_color s -> wf_color d ->
  mix s d = mkRGBA (lerp_channel (R s) (R d) (A s))
                   (lerp_channel (G s) (G d) (A s))
                   (lerp_channel (B s) (B d) (A s))
                   (mix_alpha_exact (A s) (A d)) /\
  (A d = 255 -> A (mix s d) = 255) /\
  (A s = 255 -> A (mix s d) = 255) /\
  (A s = 0 -> A (mix s d) = A d).
Proof.
  intros Hs Hd.
  assert (E : mix s d = mkRGBA (lerp_channel (R s) (R d) (A s))
                               (lerp_channel (G s) (G d) (A s))
                               (lerp_channel (B s) (B d) (A s))
                               (mix_alpha_exact (A s) (A d))).
  { destruct Hs as (Hs1 & Hs2 & Hs3 & Hs4). destruct Hd as (Hd1 & Hd2 & Hd3 & Hd4).
    rewrite mix_channels. unfold lerp_channel.
    rewrite (alpha_of_units_exact (A s) (A d) Hs4 Hd4).
    rewrite (unit_of_u8_straight (R s) Hs1), (unit_of_u8_straight (R d) Hd1).
    rewrite (unit_of_u8_straight (G s) Hs2), (unit_of_u8_straight (G d) Hd2).
    rewrite (unit_of_u8_straight (B s) Hs3), (unit_of_u8_straight (B d) Hd3).
    rewrite (unit_of_u8_straight (A s) Hs4). reflexivity. }
  split; [exact E|]. rewrite E. cbn [A].
  destruct Hs as (_ & _ & _ & Hs4). destruct Hd as (_ & _ & _ & Hd4).
  split; [|split]; intros ->.
  - apply mix_alpha_exact_opaque_dest, Hs4.
  - apply mix_alpha_exact_opaque_src, Hd4.
  - apply mix_alpha_exact_clear_src, Hd4.
Qed.

Lemma mix_interpolates_by_source_alpha_witness :
  mix (mkRGBA 200 100 50 128) (mkRGBA 10 20 30 100)
  = mkRGBA (lerp_channel 200 10 128) (lerp_channel 100 20 128) (lerp_channel 50 30 128)
           (mix_alpha_exact 128 100).
Proof.
  refine (proj1 (mix_interpolates_by_source_alpha (mkRGBA 200 100 50 128)
                   (mkRGBA 10 20 30 100) _ _));
    unfold wf_color, is_uint8; cbn; lia.
Defined.

(** C1, as stated, fails: [mix] is not the source-over operator. Half
    transparent red over a fully transparent pixel gives [(128,0,0,64)]
    where source-over gives [(255,0,0,128)], and two translucent colours
    differ in every channel. *)
Lemma mix_is_not_source_over :
  mix (mkRGBA 255 0 0 128) transparent = mkRGBA 128 0 0 64 /\
  source_over (mkRGBA 255 0 0 128) transparent = mkRGBA 255 0 0 128 /\
  mix (mkRGBA 200 100 50 128) (mkRGBA 10 20 30 100) = mkRGBA 105 60 40 114 /\
  source_over (mkRGBA 200 100 50 128) (mkRGBA 10 20 30 100) = mkRGBA 147 78 44 178 /\
  mix (mkRGBA 255 0 0 128) transparent <> source_over (mkRGBA 255 0 0 128) transparent.
Proof.
  repeat split; try (vm_compute; reflexivity).
  vm_compute. discriminate.
Qed.

(** ** C3: the colour of a gradient at a position *)

(** C3 (amended). [ColorAt] returns the transparent colour for no stop and
    the stop's colour for one stop; with more stops it returns the first
    stop's colour below the first position, the last stop's colour where no
    stop lies beyond the position, and otherwise the linear interpolation
    between the two bracketing stops: the last one not beyond the position
    and the one after it. So [ColorAt 1] is the last stop's colour when no
    stop lies beyond 1, and [ColorAt 0] is the first stop's colour when the
    first stop is at 0 and the second lies strictly after 0. *)
Theorem ColorAt_interpolates_and_clamps :
  (forall pos, ColorAt [] pos = transparent) /\
  (forall stop pos, ColorAt [stop] pos = Color stop) /\
  (forall g pos,
      2 <= Z.of_nat (length g) -> (pos <? Pos (hd stop_default g))%float = true ->
      ColorAt g pos = Color (hd stop_default g)) /\
  (forall g pos,
      g <> [] -> Forall (fun stop => (pos <? Pos stop)%float = false) g ->
      ColorAt g pos = Color (last g stop_default)) /\
  (forall pre before after post pos,
      Forall (fun stop => (pos <? Pos stop)%float = false) (pre ++ [before]) ->
      (pos <? Pos after)%float = true ->
      ColorAt (pre ++ before :: after :: post) pos = lerp_stops before after pos) /\
  (forall first second rest,
      Pos first = 0%float -> (0 <? Pos second)%float = true ->
      wf_color (Color first) -> wf_color (Color second) ->
      ColorAt (first :: second :: rest) 0 = Color first) /\
  (forall g,
      g <> [] -> Forall (fun stop => (1 <? Pos stop)%float = false) g ->
      ColorAt g 1 = Color (last g stop_default)).
Proof.
  split; [reflexivity|]. split; [reflexivity|].
  split; [exact ColorAt_below|]. split; [exact ColorAt_above|].
  split; [exact ColorAt_bracket|]. split; [exact ColorAt_at_zero|].
  intros g. apply ColorAt_above.
Qed.

Lemma ColorAt_interpolates_and_clamps_witness :
  ColorAt gray_ramp 0 = mkRGBA 0 0 0 255 /\ ColorAt gray_ramp 1 = white.
Proof.
  split.
  - refine (proj1 (proj2 (proj2 (proj2 (proj2 (proj2 ColorAt_interpolates_and_clamps)))))
              (mkStop 0 (mkRGBA 0 0 0 255)) (mkStop 1 white) [] _ _ _ _).
    + reflexivity.
    + reflexivity.
    + unfold wf_color, is_uint8; cbn; lia.
    + unfold wf_color, is_uint8; cbn; lia.
  - refine (proj2 (proj2 (proj2 (proj2 (proj2 (proj2 ColorAt_interpolates_and_clamps)))))
              gray_ramp _ _).
    + discriminate.
    + repeat constructor.
Defined.

(** C3, as stated, fails for [ColorAt 0]: with stops in non-decreasing
    order spanning [0, 1] of which two are at 0, the colour at 0 is the
    second stop's, not the first stop's. *)
Lemma ColorAt_zero_is_not_first_stop :
  ColorAt two_stops_at_zero 0 = mkRGBA 0 0 255 255 /\
  Color (hd stop_default two_stops_at_zero) = mkRGBA 255 0 0 255 /\
  ColorAt two_stops_at_zero 0 <> Color (hd stop_default two_stops_at_zero).
Proof.
  repeat split; try (vm_compute; reflexivity).
  vm_compute. discriminate.
Qed.

(** ** C7: the passes of the blur *)

(** C7 (amended). The blur is three horizontal box passes followed by three
    vertical box passes; the radii are taken from the adjusted size
    [s' = s * (1 - 1/(s+1))]: [floor s'] for the first pass of an axis,
    [floor s' + 1] for the second if the fractional remainder of [s']
    exceeds 0.333333333, and [floor s' + 1] for the third if it exceeds
    0.666666666. *)
Theorem box3_passes (img : RGBAImage) (s : float) :
  box3 img s = run_passes img (passes_of (radii_from_adjusted_size s)) /\
  box3_radii s = radii_from_adjusted_size s.
Proof.
  assert (E : box3_radii s = radii_from_adjusted_size s) by reflexivity.
  split; [|exact E].
  unfold box3. rewrite E.
  destruct (radii_from_adjusted_size s) as [[ra rb] rc].
  unfold run_passes, passes_of. cbn [fold_left]. unfold run_pass. cbn [fst snd].
  reflexivity.
Qed.

(** C7, as stated, fails: the radii do not come from the blur size itself.
    For size 1 the program blurs with the radii 0, 1, 0 where the floor and
    the fractional remainder of the size give 1, 1, 1, and the blurred
    images differ. *)
Lemma box3_radii_not_from_size :
  box3_radii 1 = (0, 1, 0) /\
  radii_from_size 1 = (1, 1, 1) /\
  map R (Pix (box3 dot5 1)) = [0; 85; 85; 85; 0] /\
  map R (Pix (run_passes dot5 (passes_of (radii_from_size 1)))) = [50; 62; 66; 62; 50] /\
  box3 dot5 1 <> run_passes dot5 (passes_of (radii_from_size 1)).
Proof.
  assert (H1 : map R (Pix (box3 dot5 1)) = [0; 85; 85; 85; 0]) by (vm_compute; reflexivity).
  assert (H2 : map R (Pix (run_passes dot5 (passes_of (radii_from_size 1))))
               = [50; 62; 66; 62; 50]) by (vm_compute; reflexivity).
  repeat split; try (vm_compute; reflexivity).
  intros E. rewrite E, H2 in H1. clear E. discriminate H1.
Qed.

(** ** C4: reading and writing back raw pixels *)

(** C4 fails on the code. On a framebuffer of one row of five different
    pixels, the image read at origin [(1, 0)] with the arguments [4] and [1]
    and written back at [(1, 0)] overwrites pixel 2 with the content of
    pixel 1: [image.Rect] takes the last two arguments as the far corner,
    and the copy starts at the source point [(0, 0)]. *)
Lemma PutImageData_GetImageData_shifts :
  map R (Pix (Image strip5)) = [10; 20; 30; 40; 50] /\
  Rect (GetImageData strip5 1 0 4 1) = mkRectangle (mkPoint 1 0) (mkPoint 4 1) /\
  map R (Pix (Image (PutImageData strip5 (GetImageData strip5 1 0 4 1) 1 0)))
  = [10; 20; 20; 40; 50] /\
  RGBAAt (Image (PutImageData strip5 (GetImageData strip5 1 0 4 1) 1 0)) 2 0
  = RGBAAt (Image strip5) 1 0 /\
  RGBAAt (Image (PutImageData strip5 (GetImageData strip5 1 0 4 1) 1 0)) 2 0
  <> RGBAAt (Image strip5) 2 0.
Proof.
  repeat split; try (vm_compute; reflexivity).
  vm_compute. discriminate.
Qed.

(** ** C10: the pixels handed to the callback of the triangle scan *)

(** C10 fails on the code for coordinates that are not numbers. For the
    triangle [(NaN,0) (NaN,10) (NaN,5)] on a 10 by 10 buffer both span
    bounds are NaN, every comparison that should clamp or skip is false,
    and the callback receives, on each of the ten rows, the x coordinate
    that the conversion of NaN to [int] yields. *)
Lemma fillTriangleNoAA_nan_pixels :
  pixelsNoAA 10 10 nan_triangle
  = map (fun y => (int_indefinite, y)) [0; 1; 2; 3; 4; 5; 6; 7; 8; 9] /\
  In (int_indefinite, 0) (pixelsNoAA 10 10 nan_triangle) /\
  ~ in_bounds 10 10 int_indefinite 0.
Proof.
  assert (E : pixelsNoAA 10 10 nan_triangle
              = map (fun y => (int_indefinite, y)) [0; 1; 2; 3; 4; 5; 6; 7; 8; 9])
    by (vm_compute; reflexivity).
  split; [exact E|]. split.
  - rewrite E. left. reflexivity.
  - unfold in_bounds, int_indefinite. lia.
Qed.
